(** * Shallow embedding of the Intcode virtual machine (crate [intcode_vm])

    The Rust source is [intcode_vm/src/lib.rs].  Integer conventions:
    - [ProgramElement = isize] and [usize] values are modelled as [Z];
    - arithmetic overflow follows Rust's release profile (two's-complement
      wrap-around), written out by [isize_wrap] and [usize_wrap];
    - an [as usize] cast of an [isize] is reinterpretation modulo 2^64
      ([as_usize]), an [as u8] cast is reduction modulo 2^8 ([as_u8]);
    - [%] and [/] on [isize] are Rust's truncating [Z.rem] and [Z.quot].
    A [panic!] (or a failing [expect]/[unwrap]) is an explicit [RPanic]
    outcome; a Rust [Result::Err] returned through [?] is [RErr] together
    with the state as the [&mut self] borrow leaves it. *)

From stdpp Require Import base gmap list.
From Stdlib Require Import ZArith Lia.

Open Scope Z_scope.

(** ** Machine integers *)

Definition isize_wrap (z : Z) : Z := (z + 2 ^ 63) mod 2 ^ 64 - 2 ^ 63.
Definition usize_wrap (z : Z) : Z := z mod 2 ^ 64.

(** [a + b] on [isize] / [usize] (release profile: wrapping). *)
Definition isize_add (a b : Z) : Z := isize_wrap (a + b).
Definition isize_mul (a b : Z) : Z := isize_wrap (a * b).
Definition usize_add (a b : Z) : Z := usize_wrap (a + b).

(** [x as usize] for [x : isize], [x as u8]. *)
Definition as_usize (x : Z) : Z := x mod 2 ^ 64.
Definition as_u8 (x : Z) : Z := x mod 2 ^ 8.

(** ** [PagedMemory<ProgramElement>] *)

Definition PAGE_SIZE : Z := 256.

(** [pages: HashMap<usize, [T; PAGE_SIZE]>]; a page is a list that always
    has [PAGE_SIZE] cells (see [mem_wf]). *)
Record PagedMemory := { pages : gmap Z (list Z) }.

Definition PagedMemory_new : PagedMemory := {| pages := ∅ |}.

(** [page[offset]]: the fallback [0] is the out-of-bounds case, which never
    occurs on a well-formed memory ([mem_wf]); [T::default()] is [0]. *)
Definition read_addr (m : PagedMemory) (addr : Z) : Z :=
  let index := addr / PAGE_SIZE in
  let offset := addr mod PAGE_SIZE in
  match pages m !! index with
  | Some page => default 0 (page !! Z.to_nat offset)
  | None => 0
  end.

Definition write_addr (m : PagedMemory) (addr : Z) (value : Z) : PagedMemory :=
  let index := addr / PAGE_SIZE in
  let offset := addr mod PAGE_SIZE in
  let page := default (replicate (Z.to_nat PAGE_SIZE) 0) (pages m !! index) in
  {| pages := <[index := <[Z.to_nat offset := value]> page]> (pages m) |}.

(** [impl From<I: IntoIterator<Item = T>> for PagedMemory<T>]: writes the
    [addr]-th element of the source at [addr]. *)
Fixpoint mem_from_aux (addr : Z) (src : list Z) (m : PagedMemory) : PagedMemory :=
  match src with
  | [] => m
  | v :: rest => mem_from_aux (addr + 1) rest (write_addr m addr v)
  end.

Definition mem_from (src : list Z) : PagedMemory := mem_from_aux 0 src PagedMemory_new.

(** Every allocated page has exactly [PAGE_SIZE] cells. *)
Definition mem_wf (m : PagedMemory) : Prop :=
  map_Forall (fun _ page => length page = Z.to_nat PAGE_SIZE) (pages m).

(** A memory built by a sequence of [write_addr] calls from [new()]. *)
Definition apply_writes (ws : list (Z * Z)) (m : PagedMemory) : PagedMemory :=
  fold_left (fun acc '(a, v) => write_addr acc a v) ws m.

Definition mem_of_writes (ws : list (Z * Z)) : PagedMemory :=
  apply_writes ws PagedMemory_new.

(** [impl PartialEq<Vec<T>> for PagedMemory<T>]: [for (addr, value) in
    other.iter().enumerate() { if self.read_addr(addr) != *value { return
    false; } } true]. *)
Fixpoint mem_eq_aux (m : PagedMemory) (addr : Z) (other : list Z) : bool :=
  match other with
  | [] => true
  | value :: rest =>
      if negb (read_addr m addr =? value) then false else mem_eq_aux m (addr + 1) rest
  end.

Definition mem_eq (m : PagedMemory) (other : list Z) : bool := mem_eq_aux m 0 other.

(** ** Instructions *)

Inductive ParameterMode := Position | Immediate | Relative.

(** [struct Parameter] ([Parameter] is a Rocq keyword). *)
Record Param := { mode : ParameterMode; contents : Z }.

Inductive OpCode :=
| Add | Multiply | ReadInput | WriteOutput | JumpIfTrue | JumpIfFalse
| LessThan | Equals | AdjustRelativeBase | Terminate.

#[global] Instance OpCode_eq_dec : EqDecision OpCode.
Proof. solve_decision. Defined.
#[global] Instance ParameterMode_eq_dec : EqDecision ParameterMode.
Proof. solve_decision. Defined.

Definition opcode_length (op : OpCode) : Z :=
  match op with
  | Add => 4 | Multiply => 4 | ReadInput => 2 | WriteOutput => 2
  | JumpIfTrue => 3 | JumpIfFalse => 3 | LessThan => 4 | Equals => 4
  | AdjustRelativeBase => 2 | Terminate => 1
  end.

(** [parameters: [Option<Parameter>; 4]]: the [Some] prefix, in order. *)
Record Instruction := { opcode : OpCode; parameters : list Param }.

Inductive ExecuteError := NoInput.

(** Reasons of a [panic!] / failing [expect] / [unwrap] on [None]. *)
Inductive PanicReason :=
| UnrecognizedMode (code : Z)
| UnrecognizedOpcode (code : Z)
| ImmediateWrite
| MissingParameter
| ExecutionErrorWhileRunningToCompletion (e : ExecuteError).

(** ** [ProgramState] *)

Record ProgramState := {
  mem : PagedMemory;
  inputs : list Z;          (* VecDeque, front first *)
  outputs : list Z;         (* VecDeque, front first *)
  program_counter : Z;
  relative_base : Z;
  terminated : bool
}.

Definition set_mem (m : PagedMemory) (s : ProgramState) : ProgramState :=
  {| mem := m; inputs := inputs s; outputs := outputs s;
     program_counter := program_counter s; relative_base := relative_base s;
     terminated := terminated s |}.
Definition set_inputs (q : list Z) (s : ProgramState) : ProgramState :=
  {| mem := mem s; inputs := q; outputs := outputs s;
     program_counter := program_counter s; relative_base := relative_base s;
     terminated := terminated s |}.
Definition set_outputs (q : list Z) (s : ProgramState) : ProgramState :=
  {| mem := mem s; inputs := inputs s; outputs := q;
     program_counter := program_counter s; relative_base := relative_base s;
     terminated := terminated s |}.
Definition set_pc (pc : Z) (s : ProgramState) : ProgramState :=
  {| mem := mem s; inputs := inputs s; outputs := outputs s;
     program_counter := pc; relative_base := relative_base s;
     terminated := terminated s |}.
Definition set_relative_base (rb : Z) (s : ProgramState) : ProgramState :=
  {| mem := mem s; inputs := inputs s; outputs := outputs s;
     program_counter := program_counter s; relative_base := rb;
     terminated := terminated s |}.
Definition set_terminated (b : bool) (s : ProgramState) : ProgramState :=
  {| mem := mem s; inputs := inputs s; outputs := outputs s;
     program_counter := program_counter s; relative_base := relative_base s;
     terminated := b |}.

(** [ProgramState::new(mem, inputs)]. *)
Definition ProgramState_new (image : list Z) (ins : list Z) : ProgramState :=
  {| mem := mem_from image; inputs := ins; outputs := [];
     program_counter := 0; relative_base := 0; terminated := false |}.

(** [inputs.push_back(x)], as done by the callers between runs. *)
Definition push_input (x : Z) (s : ProgramState) : ProgramState :=
  set_inputs (inputs s ++ [x]) s.
Definition push_inputs (xs : list Z) (s : ProgramState) : ProgramState :=
  set_inputs (inputs s ++ xs) s.

(** [VecDeque::pop_front]: on an empty queue it returns [None] and leaves
    the queue as it is. *)
Definition pop_front (q : list Z) : option Z * list Z :=
  match q with
  | [] => (None, [])
  | x :: rest => (Some x, rest)
  end.

(** ** The execution monad over [&mut ProgramState] *)

Inductive res (A : Type) :=
| ROk (a : A) (s : ProgramState)
| RErr (e : ExecuteError) (s : ProgramState)
| RPanic (why : PanicReason).
Arguments ROk {A} a s.
Arguments RErr {A} e s.
Arguments RPanic {A} why.

Definition M (A : Type) := ProgramState -> res A.

Definition ret {A} (a : A) : M A := fun s => ROk a s.
Definition bind {A B} (m : M A) (k : A -> M B) : M B :=
  fun s => match m s with
           | ROk a s' => k a s'
           | RErr e s' => RErr e s'
           | RPanic why => RPanic why
           end.
Definition panic {A} (why : PanicReason) : M A := fun _ => RPanic why.
Definition gets {A} (f : ProgramState -> A) : M A := fun s => ROk (f s) s.
Definition modify (f : ProgramState -> ProgramState) : M unit :=
  fun s => ROk tt (f s).

Notation "x <- m ;; k" := (bind m (fun x => k))
  (at level 100, m at next level, right associativity).
Notation "m ;;; k" := (bind m (fun _ => k))
  (at level 100, right associativity).

(** The state a step leaves behind, when it does not panic. *)
Definition final_state {A} (r : res A) : option ProgramState :=
  match r with
  | ROk _ s => Some s
  | RErr _ s => Some s
  | RPanic _ => None
  end.

(** ** Decoding: [ParameterMode::from], [OpCode::from_element],
    [Instruction::fetch_and_decode] *)

Definition ParameterMode_from (code : Z) : M ParameterMode :=
  match code with
  | 0 => ret Position
  | 1 => ret Immediate
  | 2 => ret Relative
  | code => panic (UnrecognizedMode code)
  end.

Definition OpCode_from_element (element : Z) : M OpCode :=
  match Z.rem element 100 with
  | 1 => ret Add
  | 2 => ret Multiply
  | 3 => ret ReadInput
  | 4 => ret WriteOutput
  | 5 => ret JumpIfTrue
  | 6 => ret JumpIfFalse
  | 7 => ret LessThan
  | 8 => ret Equals
  | 9 => ret AdjustRelativeBase
  | 99 => ret Terminate
  | code => panic (UnrecognizedOpcode code)
  end.

(** The loop [for i in 1..opcode.length()]: [n] iterations left, at
    parameter offset [i], with the remaining [parameter_modes]. *)
Fixpoint decode_params (n : nat) (i : Z) (parameter_modes : Z) : M (list Param) :=
  match n with
  | O => ret []
  | S n' =>
      md <- ParameterMode_from (as_u8 (Z.rem parameter_modes 10)) ;;
      c <- gets (fun s => read_addr (mem s) (usize_add (program_counter s) i)) ;;
      rest <- decode_params n' (i + 1) (Z.quot parameter_modes 10) ;;
      ret ({| mode := md; contents := c |} :: rest)
  end.

Definition fetch_and_decode : M Instruction :=
  raw_instr <- gets (fun s => read_addr (mem s) (program_counter s)) ;;
  op <- OpCode_from_element raw_instr ;;
  params <- decode_params (Z.to_nat (opcode_length op - 1)) 1 (Z.quot raw_instr 100) ;;
  ret {| opcode := op; parameters := params |}.

(** ** [Parameter::read], [Parameter::write] *)

Definition param_read (p : Param) (s : ProgramState) : Z :=
  match mode p with
  | Position => read_addr (mem s) (as_usize (contents p))
  | Immediate => contents p
  | Relative =>
      let addr := as_usize (isize_add (relative_base s) (contents p)) in
      read_addr (mem s) addr
  end.

Definition param_write (p : Param) (value : Z) : M unit :=
  match mode p with
  | Position =>
      let addr := as_usize (contents p) in
      modify (fun s => set_mem (write_addr (mem s) addr value) s)
  | Relative =>
      modify (fun s =>
        let addr := as_usize (isize_add (relative_base s) (contents p)) in
        set_mem (write_addr (mem s) addr value) s)
  | Immediate => panic ImmediateWrite
  end.

(** [self.parameters[idx].as_ref().unwrap()]. *)
Definition read_param (ins : Instruction) (idx : nat) : M Z :=
  match parameters ins !! idx with
  | Some p => gets (param_read p)
  | None => panic MissingParameter
  end.

Definition write_param (ins : Instruction) (idx : nat) (value : Z) : M unit :=
  match parameters ins !! idx with
  | Some p => param_write p value
  | None => panic MissingParameter
  end.

(** [state.inputs.pop_front().ok_or(ExecuteError::NoInput)?] *)
Definition pop_input : M Z :=
  fun s =>
    let (front, rest) := pop_front (inputs s) in
    let s' := set_inputs rest s in
    match front with
    | Some x => ROk x s'
    | None => RErr NoInput s'
    end.

(** ** [Instruction::execute].  [execute_op] is its [match self.opcode],
    yielding the [jumped] flag; [execute] adds the default advance. *)
Definition execute_op (ins : Instruction) : M bool :=
    match opcode ins with
    | Add =>
        a <- read_param ins 0 ;; b <- read_param ins 1 ;;
        write_param ins 2 (isize_add a b) ;;; ret false
    | Multiply =>
        a <- read_param ins 0 ;; b <- read_param ins 1 ;;
        write_param ins 2 (isize_mul a b) ;;; ret false
    | ReadInput =>
        input <- pop_input ;;
        write_param ins 0 input ;;; ret false
    | WriteOutput =>
        a <- read_param ins 0 ;;
        modify (fun s => set_outputs (outputs s ++ [a]) s) ;;; ret false
    | JumpIfTrue =>
        test <- read_param ins 0 ;;
        if negb (test =? 0) then
          target <- read_param ins 1 ;;
          modify (set_pc (as_usize target)) ;;; ret true
        else ret false
    | JumpIfFalse =>
        test <- read_param ins 0 ;;
        if test =? 0 then
          target <- read_param ins 1 ;;
          modify (set_pc (as_usize target)) ;;; ret true
        else ret false
    | LessThan =>
        a <- read_param ins 0 ;; b <- read_param ins 1 ;;
        write_param ins 2 (if a <? b then 1 else 0) ;;; ret false
    | Equals =>
        a <- read_param ins 0 ;; b <- read_param ins 1 ;;
        write_param ins 2 (if a =? b then 1 else 0) ;;; ret false
    | AdjustRelativeBase =>
        a <- read_param ins 0 ;;
        modify (fun s => set_relative_base (isize_add (relative_base s) a) s) ;;;
        ret false
    | Terminate => modify (set_terminated true) ;;; ret false
    end.

Definition execute (ins : Instruction) : M unit :=
  jumped <- execute_op ins ;;
  (if jumped then ret tt
   else modify (fun s =>
          set_pc (usize_add (program_counter s) (opcode_length (opcode ins))) s)) ;;;
  ret tt.

(** [ProgramState::progress_state]. *)
Definition progress_state : M unit :=
  instr <- fetch_and_decode ;; execute instr.

(** ** Run loops.  [fuel] bounds the number of loop iterations; [OutOfFuel]
    is not a behaviour of the program, only of the bound. *)

Inductive run_outcome :=
| Finished (s : ProgramState)
| Panicked (why : PanicReason)
| OutOfFuel.

(** [run_to_next_input]: [while !self.terminated { match progress_state()
    { Ok(()) => (), Err(NoInput) => break } }] *)
Fixpoint run_to_next_input (fuel : nat) (s : ProgramState) : run_outcome :=
  if terminated s then Finished s else
  match fuel with
  | O => OutOfFuel
  | S fuel' =>
      match progress_state s with
      | ROk _ s' => run_to_next_input fuel' s'
      | RErr NoInput s' => Finished s'
      | RPanic why => Panicked why
      end
  end.

(** [run_to_completion]: [while !self.terminated {
    self.progress_state().expect(..) }] *)
Fixpoint run_to_completion (fuel : nat) (s : ProgramState) : run_outcome :=
  if terminated s then Finished s else
  match fuel with
  | O => OutOfFuel
  | S fuel' =>
      match progress_state s with
      | ROk _ s' => run_to_completion fuel' s'
      | RErr e _ => Panicked (ExecutionErrorWhileRunningToCompletion e)
      | RPanic why => Panicked why
      end
  end.

(** A caller that feeds the inputs in portions: for each portion, push it
    onto the input queue, then call [run_to_next_input]. *)
Fixpoint run_in_portions (fuel : nat) (portions : list (list Z)) (s : ProgramState)
  : run_outcome :=
  match portions with
  | [] => Finished s
  | p :: ps =>
      match run_to_next_input fuel (push_inputs p s) with
      | Finished s' => run_in_portions fuel ps s'
      | other => other
      end
  end.

Definition outputs_of (r : run_outcome) : option (list Z) :=
  match r with
  | Finished s => Some (outputs s)
  | _ => None
  end.

Definition branch_program : list Z := [3;12;6;12;15;1;13;14;13;4;13;99;-1;0;1;9].

(** ** The decoding rule as the specification words it (opcode [w mod 100],
    mode of parameter [i] the [i]-th decimal digit of [w / 100]), for
    comparison with [fetch_and_decode]. *)

Definition opcode_of_code (c : Z) : option OpCode :=
  match c with
  | 1 => Some Add | 2 => Some Multiply | 3 => Some ReadInput | 4 => Some WriteOutput
  | 5 => Some JumpIfTrue | 6 => Some JumpIfFalse | 7 => Some LessThan | 8 => Some Equals
  | 9 => Some AdjustRelativeBase | 99 => Some Terminate
  | _ => None
  end.

Definition mode_of_digit (d : Z) : option ParameterMode :=
  match d with
  | 0 => Some Position | 1 => Some Immediate | 2 => Some Relative
  | _ => None
  end.

(** Parameters [i+1 .. i+k]: mode from digit [i] of [w / 100], operand the
    word at [pc + i + 1]. *)
Fixpoint spec_params (w : Z) (s : ProgramState) (k i : nat) : option (list Param) :=
  match k with
  | O => Some []
  | S k' =>
      match mode_of_digit ((w / 100) / 10 ^ Z.of_nat i mod 10),
            spec_params w s k' (S i) with
      | Some md, Some rest =>
          Some ({| mode := md;
                   contents := read_addr (mem s)
                                 (usize_add (program_counter s) (Z.of_nat i + 1)) |} :: rest)
      | _, _ => None
      end
  end.

Definition spec_decode (s : ProgramState) : option Instruction :=
  let w := read_addr (mem s) (program_counter s) in
  match opcode_of_code (w mod 100) with
  | None => None
  | Some op =>
      match spec_params w s (Z.to_nat (opcode_length op - 1)) 0 with
      | Some ps => Some {| opcode := op; parameters := ps |}
      | None => None
      end
  end.

(** [fetch_and_decode] on [s] agrees with a decoding result: [Some ins]
    is a successful decode of [ins] that leaves the state as it is, [None]
    a panic. *)
Definition decodes_as (d : option Instruction) (s : ProgramState) : Prop :=
  match d with
  | Some ins => fetch_and_decode s = ROk ins s
  | None => exists why, fetch_and_decode s = RPanic why
  end.

(** The iterations of the run loops: [s] reaches [t] by successful steps,
    each from a state whose [terminated] flag is still false. *)
Inductive steps_to : ProgramState -> ProgramState -> Prop :=
| steps_refl (s : ProgramState) : steps_to s s
| steps_step (s s' t : ProgramState) :
    terminated s = false -> progress_state s = ROk tt s' -> steps_to s' t -> steps_to s t.

(** ** Relations used in the proofs *)

Definition res_map {A} (f : ProgramState -> ProgramState) (r : res A) : res A :=
  match r with
  | ROk a s => ROk a (f s)
  | RErr e s => RErr e (f s)
  | RPanic why => RPanic why
  end.

(** [m] leaves the state related to its start by [R] (panics aside). *)
Definition stable {A} (R : ProgramState -> ProgramState -> Prop) (m : M A) : Prop :=
  forall s, match m s with
            | ROk _ s' | RErr _ s' => R s s'
            | RPanic _ => True
            end.

(** [m] never returns the recoverable [Err]. *)
Definition no_err {A} (m : M A) : Prop :=
  forall s e s', m s <> RErr e s'.

(** [m] commutes with a state update [f] that it cannot observe. *)
Definition commutes {A} (f : ProgramState -> ProgramState) (m : M A) : Prop :=
  forall s, m (f s) = res_map f (m s).

Definition rb_kept (s s' : ProgramState) : Prop := relative_base s' = relative_base s.
Definition term_kept (s s' : ProgramState) : Prop := terminated s = true -> terminated s' = true.

(** ** [ProgramState::load_program_file]

    The pure part of the loader, from the bytes of the file (each byte a
    [Z] in [0, 256)) to the initial state.  Opening and reading the file
    are I/O and are not modelled; every [expect] is a [None]. *)

(** [BufRead::read_until(delim, &mut buf)]: the bytes up to and including
    the first [delim], or all remaining bytes; and what is left. *)
Fixpoint read_until (delim : Z) (bytes : list Z) : list Z * list Z :=
  match bytes with
  | [] => ([], [])
  | b :: rest =>
      if b =? delim then ([b], rest)
      else let '(buf, rest') := read_until delim rest in (b :: buf, rest')
  end.

(** [Split::next]: a read of 0 bytes ends the iteration; otherwise a
    trailing delimiter is popped from the piece. *)
Definition split_next (delim : Z) (bytes : list Z) : option (list Z * list Z) :=
  match read_until delim bytes with
  | ([], _) => None
  | (buf, rest) =>
      Some (if bool_decide (last buf = Some delim) then removelast buf else buf, rest)
  end.

(** The iteration of [Split::next]; each piece consumes at least one byte,
    so [length bytes + 1] rounds reach the end of the input. *)
Fixpoint split_rounds (fuel : nat) (delim : Z) (bytes : list Z) : list (list Z) :=
  match fuel with
  | O => []
  | S fuel' =>
      match split_next delim bytes with
      | None => []
      | Some (piece, rest) => piece :: split_rounds fuel' delim rest
      end
  end.

(** [reader.split(delim)], all pieces. *)
Definition BufRead_split (delim : Z) (bytes : list Z) : list (list Z) :=
  split_rounds (S (length bytes)) delim bytes.

Definition in_range (lo hi b : Z) : bool := (lo <=? b) && (b <=? hi).
Definition utf8_cont (b : Z) : bool := in_range 128 191 b.

(** [String::from_utf8]: the code points of a well-formed UTF-8 byte
    sequence (first-byte ranges and second-byte bounds of the standard
    library's validator); [None] is the [Err]. *)
Fixpoint from_utf8 (bytes : list Z) : option (list Z) :=
  match bytes with
  | [] => Some []
  | b0 :: rest =>
      if b0 <=? 127 then option_map (cons b0) (from_utf8 rest)
      else if in_range 194 223 b0 then
        match rest with
        | b1 :: rest1 =>
            if utf8_cont b1
            then option_map (cons (Z.land b0 31 * 64 + Z.land b1 63)) (from_utf8 rest1)
            else None
        | [] => None
        end
      else if in_range 224 239 b0 then
        match rest with
        | b1 :: b2 :: rest2 =>
            let lo := if b0 =? 224 then 160 else 128 in
            let hi := if b0 =? 237 then 159 else 191 in
            if in_range lo hi b1 && utf8_cont b2
            then option_map (cons (Z.land b0 15 * 4096 + Z.land b1 63 * 64 + Z.land b2 63))
                   (from_utf8 rest2)
            else None
        | _ => None
        end
      else if in_range 240 244 b0 then
        match rest with
        | b1 :: b2 :: b3 :: rest3 =>
            let lo := if b0 =? 240 then 144 else 128 in
            let hi := if b0 =? 244 then 143 else 191 in
            if in_range lo hi b1 && utf8_cont b2 && utf8_cont b3
            then option_map (cons (Z.land b0 7 * 262144 + Z.land b1 63 * 4096 +
                                   Z.land b2 63 * 64 + Z.land b3 63))
                   (from_utf8 rest3)
            else None
        | _ => None
        end
      else None
  end.

(** [char::is_whitespace]: [' ' | '\x09'..='\x0d'], or above [\x7f] with
    the Unicode [White_Space] property. *)
Definition is_whitespace (c : Z) : bool :=
  (c =? 32) || in_range 9 13 c ||
  ((127 <? c) &&
   ((c =? 133) || (c =? 160) || (c =? 5760) || in_range 8192 8202 c ||
    (c =? 8232) || (c =? 8233) || (c =? 8239) || (c =? 8287) || (c =? 12288))).

Fixpoint trim_start (s : list Z) : list Z :=
  match s with
  | [] => []
  | c :: rest => if is_whitespace c then trim_start rest else s
  end.

(** [str::trim]: leading and trailing whitespace removed. *)
Definition trim (s : list Z) : list Z := rev (trim_start (rev (trim_start s))).

Definition ISIZE_MIN : Z := - 2 ^ 63.
Definition ISIZE_MAX : Z := 2 ^ 63 - 1.
Definition in_isize (z : Z) : bool := (ISIZE_MIN <=? z) && (z <=? ISIZE_MAX).

(** [(c as char).to_digit(10)]. *)
Definition to_digit (c : Z) : option Z := if in_range 48 57 c then Some (c - 48) else None.

(** The digit loop of [isize::from_str_radix(src, 10)]: [checked_mul],
    then [checked_add] (positive) or [checked_sub] (negative). *)
Fixpoint parse_digits (is_positive : bool) (result : Z) (digits : list Z) : option Z :=
  match digits with
  | [] => Some result
  | c :: rest =>
      match to_digit c with
      | None => None
      | Some x =>
          let r := result * 10 in
          if negb (in_isize r) then None else
          let r' := if is_positive then r + x else r - x in
          if negb (in_isize r') then None else parse_digits is_positive r' rest
      end
  end.

(** [str::parse::<isize>]: an empty string is an error; a leading ['+']
    or ['-'] selects the sign; an empty digit string is an error.  The
    string is taken as its characters: a character that is not ASCII is
    never a sign or a digit, so the result is the same as on its UTF-8
    bytes. *)
Definition parse_isize (src : list Z) : option Z :=
  match src with
  | [] => None
  | c :: rest =>
      let '(is_positive, digits) :=
        if c =? 43 then (true, rest) else if c =? 45 then (false, rest) else (true, src) in
      match digits with
      | [] => None
      | _ => parse_digits is_positive 0 digits
      end
  end.

(** One element: [String::from_utf8(el).expect(..)], [el.trim()],
    [el.parse::<ProgramElement>().expect(..)]. *)
Definition parse_element (el : list Z) : option Z :=
  match from_utf8 el with
  | Some chars => parse_isize (trim chars)
  | None => None
  end.

Definition load_program_bytes (bytes : list Z) : option ProgramState :=
  match mapM parse_element (BufRead_split 44 bytes) with
  | Some initial_mem =>
      Some {| mem := mem_from initial_mem; inputs := []; outputs := [];
              program_counter := 0; relative_base := 0; terminated := false |}
  | None => None
  end.

(** Writing a program file, for round trips with the loader: the decimal
    text of an [isize] as [format!("{}")] prints it, and the elements
    joined by commas. *)
Fixpoint decimal_digits (fuel : nat) (n : Z) : list Z :=
  match fuel with
  | O => []
  | S fuel' => if n <? 10 then [48 + n] else decimal_digits fuel' (n / 10) ++ [48 + n mod 10]
  end.

Definition render_isize (n : Z) : list Z :=
  (if n <? 0 then [45] else []) ++ decimal_digits 20 (Z.abs n).

Fixpoint join_comma (els : list (list Z)) : list Z :=
  match els with
  | [] => []
  | [e] => e
  | e :: rest => e ++ 44 :: join_comma rest
  end.

(** The value of a string of decimal digits. *)
Definition is_digit (c : Z) : bool := in_range 48 57 c.
Definition dec_step (acc c : Z) : Z := acc * 10 + (c - 48).
Definition decimal_value (digits : list Z) : Z := fold_left dec_step digits 0.

(** ** Callers of the VM

    The puzzle solutions drive the VM through [run_to_next_input] and read
    its output queue.  A caller's run ends in [Done], in a panic ([Panics],
    with the VM's reason when the VM panicked, [None] for a panic of the
    caller's own: an [unwrap], [expect], [panic!] or [unreachable!]), or
    runs out of the fuel given to the loops ([NoFuel]). *)

Inductive outcome (A : Type) :=
| Done (a : A)
| Panics (why : option PanicReason)
| NoFuel.
Arguments Done {A} a.
Arguments Panics {A} why.
Arguments NoFuel {A}.

(** [i32] arithmetic (release profile: wrapping) and [isize as i32]. *)
Definition i32_wrap (z : Z) : Z := (z + 2 ^ 31) mod 2 ^ 32 - 2 ^ 31.

(** *** Crate [util]: [vec2.rs] and [geometry.rs] *)
Module Util.

Record Vec2 := Vec2_new { x : Z; y : Z }.

#[global] Instance Vec2_eq_dec : EqDecision Vec2.
Proof. solve_decision. Defined.
#[global] Instance Vec2_countable : Countable Vec2.
Proof.
  apply (inj_countable' (fun v => (x v, y v)) (fun p => Vec2_new p.1 p.2)).
  by intros [].
Defined.

(** [impl Add for Vec2], [impl Neg for Vec2]. *)
Definition Vec2_add (a b : Vec2) : Vec2 := Vec2_new (i32_wrap (x a + x b)) (i32_wrap (y a + y b)).
Definition Vec2_neg (a : Vec2) : Vec2 := Vec2_new (i32_wrap (- x a)) (i32_wrap (- y a)).

Inductive Rotation := Clockwise | CounterClockwise.

Inductive CardDir := Up | Down | Left | Right.

#[global] Instance CardDir_eq_dec : EqDecision CardDir.
Proof. solve_decision. Defined.

(** [CardDir::turn]; [rem_euclid(4)] is [Z.modulo] for the positive
    divisor, and the last arm is the [unreachable!]. *)
Definition turn (self : CardDir) (rot : Rotation) : option CardDir :=
  let dirnum := match self with Up => 0 | Left => 1 | Down => 2 | Right => 3 end in
  let rotnum := match rot with Clockwise => 1 | CounterClockwise => -1 end in
  match (dirnum + rotnum) mod 4 with
  | 0 => Some Up
  | 1 => Some Left
  | 2 => Some Down
  | 3 => Some Right
  | _ => None
  end.

Definition opposite (self : CardDir) : CardDir :=
  match self with Up => Down | Down => Up | Right => Left | Left => Right end.

Definition vec (self : CardDir) : Vec2 :=
  match self with
  | Up => Vec2_new 0 1
  | Down => Vec2_new 0 (-1)
  | Right => Vec2_new 1 0
  | Left => Vec2_new (-1) 0
  end.

End Util.

(** *** [day_7]: [test_phase_settings], the amplifier feedback loop *)
Module Day7.

(** [while !amps.last().unwrap().terminated { amps[idx].inputs.push_back(signal);
    amps[idx].run_to_next_input(); signal = *amps[idx].outputs.back().unwrap();
    idx = (idx + 1) % amps.len(); }], with the amplifiers and the signal as
    the loop leaves them. *)
Fixpoint amp_loop (rounds fuel : nat) (amps : list ProgramState) (signal : Z) (idx : nat)
  : outcome (Z * list ProgramState) :=
  match last amps with
  | None => Panics None
  | Some l =>
      if terminated l then Done (signal, amps) else
      match rounds with
      | O => NoFuel
      | S rounds' =>
          match amps !! idx with
          | None => Panics None
          | Some a =>
              match run_to_next_input fuel (push_input signal a) with
              | Finished a' =>
                  match last (outputs a') with
                  | None => Panics None
                  | Some signal' =>
                      amp_loop rounds' fuel (<[idx := a']> amps) signal'
                        (Nat.modulo (idx + 1) (length amps))
                  end
              | Panicked why => Panics (Some why)
              | OutOfFuel => NoFuel
              end
          end
      end
  end.

Definition test_phase_settings (rounds fuel : nat) (phase_settings : list Z)
    (program : ProgramState) : outcome Z :=
  let amps := map (fun phase_setting => push_input phase_setting program) phase_settings in
  match amp_loop rounds fuel amps 0 0 with
  | Done (signal, _) => Done signal
  | Panics why => Panics why
  | NoFuel => NoFuel
  end.

End Day7.

(** *** [day_11]: the hull-painting robot *)
Module Day11.

Inductive Rotation := Clockwise | CounterClockwise.

Inductive CardDir := Up | Down | Left | Right.

(** [CardDir::turn] (the day's own copy). *)
Definition turn (self : CardDir) (rot : Rotation) : option CardDir :=
  let dirnum := match self with Up => 0 | Left => 1 | Down => 2 | Right => 3 end in
  let rotnum := match rot with Clockwise => 1 | CounterClockwise => -1 end in
  match (dirnum + rotnum) mod 4 with
  | 0 => Some Up
  | 1 => Some Left
  | 2 => Some Down
  | 3 => Some Right
  | _ => None
  end.

Inductive Color := Black | White.

Record Coord := Coord_new { x : Z; y : Z }.

#[global] Instance Coord_eq_dec : EqDecision Coord.
Proof. solve_decision. Defined.
#[global] Instance Coord_countable : Countable Coord.
Proof.
  apply (inj_countable' (fun c => (x c, y c)) (fun p => Coord_new p.1 p.2)).
  by intros [].
Defined.

Definition advance (self : Coord) (dir : CardDir) : Coord :=
  match dir with
  | Up => Coord_new (x self) (i32_wrap (y self + 1))
  | Down => Coord_new (x self) (i32_wrap (y self - 1))
  | Left => Coord_new (i32_wrap (x self + 1)) (y self)
  | Right => Coord_new (i32_wrap (x self - 1)) (y self)
  end.

Record Board := Board_mk { white_cells : gset Coord; painted_ever : gset Coord }.

Definition Board_new : Board := Board_mk {[ Coord_new 0 0 ]} ∅.

Definition get_color_of (self : Board) (coord : Coord) : Color :=
  if bool_decide (coord ∈ white_cells self) then White else Black.

Definition set_color_of (self : Board) (coord : Coord) (color : Color) : Board :=
  let painted := {[ coord ]} ∪ painted_ever self in
  match color with
  | White => Board_mk ({[ coord ]} ∪ white_cells self) painted
  | Black => Board_mk (white_cells self ∖ {[ coord ]}) painted
  end.

Record Robot := Robot_mk { pos : Coord; dir : CardDir; board : Board; controller : ProgramState }.

(** [Robot::step]. *)
Definition step (fuel : nat) (self : Robot) : outcome Robot :=
  let sensor_reading :=
    match get_color_of (board self) (pos self) with White => 1 | Black => 0 end in
  match run_to_next_input fuel (push_input sensor_reading (controller self)) with
  | Panicked why => Panics (Some why)
  | OutOfFuel => NoFuel
  | Finished c =>
      let '(color_command, outs1) := pop_front (outputs c) in
      let '(movement_command, outs2) := pop_front outs1 in
      let c' := set_outputs outs2 c in
      let painted :=
        match color_command with
        | Some 0 => Some (set_color_of (board self) (pos self) Black)
        | Some 1 => Some (set_color_of (board self) (pos self) White)
        | Some _ => None
        | None => Some (board self)
        end in
      match painted with
      | None => Panics None
      | Some b =>
          match movement_command with
          | Some 0 =>
              match turn (dir self) CounterClockwise with
              | Some d => Done (Robot_mk (advance (pos self) d) d b c')
              | None => Panics None
              end
          | Some 1 =>
              match turn (dir self) Clockwise with
              | Some d => Done (Robot_mk (advance (pos self) d) d b c')
              | None => Panics None
              end
          | Some _ => Panics None
          | None => Done (Robot_mk (pos self) (dir self) b c')
          end
      end
  end.

End Day11.

(** *** [day_13]: the arcade cabinet *)
Module Day13.

Inductive CellContents := Empty | Wall | Block | Paddle | Ball.

#[global] Instance CellContents_eq_dec : EqDecision CellContents.
Proof. solve_decision. Defined.

(** [impl From<ProgramElement> for CellContents]. *)
Definition CellContents_from (num : Z) : option CellContents :=
  match num with
  | 0 => Some Empty
  | 1 => Some Wall
  | 2 => Some Block
  | 3 => Some Paddle
  | 4 => Some Ball
  | _ => None
  end.

Inductive GameMessage :=
| BlockUpdate (pos : Util.Vec2) (contents : CellContents)
| ScoreUpdate (score : Z).

(** [impl From<(ProgramElement, ProgramElement, ProgramElement)> for
    GameMessage]; [as i32] keeps the low 32 bits. *)
Definition GameMessage_from (n0 n1 n2 : Z) : option GameMessage :=
  let x := i32_wrap n0 in
  let y := i32_wrap n1 in
  if (x =? -1) && (y =? 0) then Some (ScoreUpdate (i32_wrap n2))
  else
    match CellContents_from n2 with
    | Some contents => Some (BlockUpdate (Util.Vec2_new x y) contents)
    | None => None
    end.

Record Game := Game_mk {
  board : gmap Util.Vec2 CellContents;
  ball_pos : option Util.Vec2;
  paddle_pos : option Util.Vec2;
  score : option Z;
  controller : ProgramState
}.

Definition set_controller (c : ProgramState) (g : Game) : Game :=
  Game_mk (board g) (ball_pos g) (paddle_pos g) (score g) c.

(** [Game::process_msg]. *)
Definition process_msg (self : Game) (msg : GameMessage) : Game :=
  match msg with
  | BlockUpdate pos contents =>
      match contents with
      | Empty =>
          Game_mk (delete pos (board self))
            (if bool_decide (Some pos = ball_pos self) then None else ball_pos self)
            (if bool_decide (Some pos = paddle_pos self) then None else paddle_pos self)
            (score self) (controller self)
      | Ball => Game_mk (board self) (Some pos) (paddle_pos self) (score self) (controller self)
      | Paddle => Game_mk (board self) (ball_pos self) (Some pos) (score self) (controller self)
      | _ => Game_mk (<[pos := contents]> (board self)) (ball_pos self) (paddle_pos self)
               (score self) (controller self)
      end
  | ScoreUpdate s => Game_mk (board self) (ball_pos self) (paddle_pos self) (Some s) (controller self)
  end.

(** [while self.controller.outputs.len() >= 3 { pop three outputs;
    self.process_msg(msg_nums.into()) }]; each round pops three outputs,
    so the loop is a recursion on the output queue [outs], which is the
    controller's. *)
Fixpoint process_outputs (outs : list Z) (self : Game) : option Game :=
  match outs with
  | n0 :: n1 :: n2 :: rest =>
      let self' := set_controller (set_outputs rest (controller self)) self in
      match GameMessage_from n0 n1 n2 with
      | Some msg => process_outputs rest (process_msg self' msg)
      | None => None
      end
  | _ => Some self
  end.

(** [Game::step]. *)
Definition step (fuel : nat) (self : Game) (paddle_input : option Z) : outcome Game :=
  let c := match paddle_input with
           | Some input => push_input input (controller self)
           | None => controller self
           end in
  match run_to_next_input fuel c with
  | Finished c' =>
      match process_outputs (outputs c') (set_controller c' self) with
      | Some g => Done g
      | None => Panics None
      end
  | Panicked why => Panics (Some why)
  | OutOfFuel => NoFuel
  end.

End Day13.

(** *** [day_15]: the repair droid and its maze search *)
Module Day15.

Import Util.

Inductive RobotResponse := Moved | HitWall | FoundOxygen.

#[global] Instance RobotResponse_eq_dec : EqDecision RobotResponse.
Proof. solve_decision. Defined.

(** [Robot::explore], on the robot's controller. *)
Definition explore (fuel : nat) (controller : ProgramState) (direction : CardDir)
  : outcome (RobotResponse * ProgramState) :=
  let input := match direction with Up => 1 | Down => 2 | Left => 3 | Right => 4 end in
  match run_to_next_input fuel (push_input input controller) with
  | Finished c =>
      match pop_front (outputs c) with
      | (Some output, rest) =>
          let c' := set_outputs rest c in
          match output with
          | 0 => Done (HitWall, c')
          | 1 => Done (Moved, c')
          | 2 => Done (FoundOxygen, c')
          | _ => Panics None
          end
      | (None, _) => Panics None
      end
  | Panicked why => Panics (Some why)
  | OutOfFuel => NoFuel
  end.

Record DfsStackElement := Dfs_mk {
  position : Vec2;
  from_dir : option CardDir;
  last_search_dir : option CardDir;
  on_oxygen : bool
}.

Definition set_last_search_dir (d : option CardDir) (e : DfsStackElement) : DfsStackElement :=
  Dfs_mk (position e) (from_dir e) d (on_oxygen e).

Definition dfs_start : DfsStackElement := Dfs_mk (Vec2_new 0 0) None None false.

Section MazeDfs.

(** The callback is an [FnMut]: a state of its own, threaded through. *)
Context {C : Type} (step_callback : C -> list DfsStackElement -> C * bool).

(** The body of [maze_dfs]'s [loop], on the stack (a [Vec], top last), the
    robot's controller and the callback's state. *)
Fixpoint maze_dfs_loop (rounds fuel : nat) (stack : list DfsStackElement)
    (controller : ProgramState) (cb : C)
  : outcome (list DfsStackElement * ProgramState * C) :=
  match rounds with
  | O => NoFuel
  | S rounds' =>
      match last stack with
      | None => Panics None
      | Some head =>
          let search_dir :=
            match last_search_dir head with
            | Some dir => turn dir Clockwise
            | None =>
                match from_dir head with
                | Some dir => turn dir Clockwise
                | None => Some Up
                end
            end in
          match search_dir with
          | None => Panics None
          | Some search_dir =>
              if bool_decide (length stack = 1%nat) && bool_decide (search_dir = Up) &&
                 bool_decide (is_Some (last_search_dir head))
              then Done (stack, controller, cb)
              else
                match explore fuel controller search_dir with
                | Done (explore_result, controller') =>
                    let head' := set_last_search_dir (Some search_dir) head in
                    let stack1 := removelast stack ++ [head'] in
                    let stack2 :=
                      match explore_result with
                      | HitWall => stack1
                      | _ =>
                          if bool_decide (Some search_dir = from_dir head')
                          then removelast stack1
                          else stack1 ++ [Dfs_mk (Vec2_add (position head') (vec search_dir))
                                                 (Some (opposite search_dir)) None
                                                 (bool_decide (explore_result = FoundOxygen))]
                      end in
                    let '(cb', stop) := step_callback cb stack2 in
                    if stop then Done (stack2, controller', cb')
                    else maze_dfs_loop rounds' fuel stack2 controller' cb'
                | Panics why => Panics why
                | NoFuel => NoFuel
                end
          end
      end
  end.

(** [maze_dfs(robot, step_callback)]. *)
Definition maze_dfs (rounds fuel : nat) (controller : ProgramState) (cb : C)
  : outcome (list DfsStackElement * ProgramState * C) :=
  maze_dfs_loop rounds fuel [dfs_start] controller cb.

End MazeDfs.

End Day15.

(** * Proofs *)

(** The repository's unit tests, evaluated on the model. *)

Example ex_add : option_map (fun s => map (read_addr (mem s)) [0;1;2;3;4])
  (match run_to_completion 10 (ProgramState_new [1;0;0;0;99] []) with
   | Finished s => Some s | _ => None end) = Some [2;0;0;0;99].
Proof. vm_compute. reflexivity. Qed.
Example ex_nontrivial : option_map (fun s => map (read_addr (mem s)) (seqZ 0 9))
  (match run_to_completion 10 (ProgramState_new [1;1;1;4;99;5;6;0;99] []) with
   | Finished s => Some s | _ => None end) = Some [30;1;1;4;2;5;6;0;99].
Proof. vm_compute. reflexivity. Qed.
Example ex_branch0 : outputs_of (run_to_completion 10 (ProgramState_new branch_program [0])) = Some [0].
Proof. vm_compute. reflexivity. Qed.
Example ex_branch4 : outputs_of (run_to_completion 10 (ProgramState_new branch_program [4])) = Some [1].
Proof. vm_compute. reflexivity. Qed.

Example ex_decode_1002 :
  spec_decode (ProgramState_new [1002;4;3;4;33] []) =
    Some {| opcode := Multiply;
            parameters := [{| mode := Position; contents := 4 |};
                           {| mode := Immediate; contents := 3 |};
                           {| mode := Position; contents := 4 |}] |} /\
  decodes_as (spec_decode (ProgramState_new [1002;4;3;4;33] []))
             (ProgramState_new [1002;4;3;4;33] []).
Proof. split; vm_compute; reflexivity. Qed.

(** ** Sparse memory *)

Section Memory.

Lemma page_decomp (a : Z) : a = PAGE_SIZE * (a / PAGE_SIZE) + a mod PAGE_SIZE.
Proof. apply Z.div_mod. unfold PAGE_SIZE. lia. Qed.

Lemma offset_bound (a : Z) : (Z.to_nat (a mod PAGE_SIZE) < Z.to_nat PAGE_SIZE)%nat.
Proof.
  pose proof (Z.mod_pos_bound a PAGE_SIZE). unfold PAGE_SIZE in *. lia.
Qed.

Lemma same_cell (a b : Z) :
  a / PAGE_SIZE = b / PAGE_SIZE ->
  Z.to_nat (a mod PAGE_SIZE) = Z.to_nat (b mod PAGE_SIZE) -> a = b.
Proof.
  intros Hi Ho.
  pose proof (Z.mod_pos_bound a PAGE_SIZE). pose proof (Z.mod_pos_bound b PAGE_SIZE).
  rewrite (page_decomp a), (page_decomp b), Hi.
  unfold PAGE_SIZE in *. lia.
Qed.

Lemma mem_wf_new : mem_wf PagedMemory_new.
Proof. unfold mem_wf. simpl. apply map_Forall_empty. Qed.

Lemma mem_wf_write (m : PagedMemory) (a v : Z) :
  mem_wf m -> mem_wf (write_addr m a v).
Proof.
  unfold mem_wf, write_addr. cbn [pages]. intros Hwf.
  apply map_Forall_insert_2; [|done].
  rewrite length_insert.
  destruct (pages m !! (a / PAGE_SIZE)) eqn:E; cbn [default].
  - by apply Hwf in E.
  - by rewrite length_replicate.
Qed.

Lemma mem_wf_apply_writes (ws : list (Z * Z)) (m : PagedMemory) :
  mem_wf m -> mem_wf (apply_writes ws m).
Proof.
  revert m. induction ws as [|[a v] ws IH]; intros m Hm; simpl; [done|].
  apply IH, mem_wf_write, Hm.
Qed.

Lemma mem_wf_from_aux (src : list Z) (addr : Z) (m : PagedMemory) :
  mem_wf m -> mem_wf (mem_from_aux addr src m).
Proof.
  revert addr m. induction src as [|v src IH]; intros addr m Hm; simpl; [done|].
  apply IH, mem_wf_write, Hm.
Qed.

Lemma mem_wf_in_bounds (m : PagedMemory) (a : Z) (page : list Z) :
  mem_wf m -> pages m !! (a / PAGE_SIZE) = Some page ->
  (Z.to_nat (a mod PAGE_SIZE) < length page)%nat.
Proof. intros Hwf Hp. apply Hwf in Hp. rewrite Hp. apply offset_bound. Qed.

Lemma read_new (a : Z) : read_addr PagedMemory_new a = 0.
Proof. reflexivity. Qed.

Lemma read_write_eq (m : PagedMemory) (a v : Z) :
  mem_wf m -> read_addr (write_addr m a v) a = v.
Proof.
  intros Hwf. unfold read_addr, write_addr. cbv zeta. cbn [pages].
  rewrite lookup_insert_eq. cbn [default].
  rewrite list_lookup_insert_eq; [done|].
  destruct (pages m !! (a / PAGE_SIZE)) as [page|] eqn:E; cbn [default].
  - by eapply mem_wf_in_bounds.
  - rewrite length_replicate. apply offset_bound.
Qed.

Lemma read_write_ne (m : PagedMemory) (a b v : Z) :
  a <> b -> read_addr (write_addr m a v) b = read_addr m b.
Proof.
  intros Hne. unfold read_addr, write_addr. cbv zeta. cbn [pages].
  destruct (decide (a / PAGE_SIZE = b / PAGE_SIZE)) as [Hi|Hi].
  - rewrite Hi, lookup_insert_eq. cbn [default].
    rewrite list_lookup_insert_ne.
    2:{ intros Ho. apply Hne, same_cell; [done|]. lia. }
    destruct (pages m !! (b / PAGE_SIZE)) as [page|] eqn:E; cbn [default]; [done|].
    rewrite lookup_replicate_2; [done|]. apply offset_bound.
  - by rewrite lookup_insert_ne.
Qed.

Lemma read_apply_writes_other (ws : list (Z * Z)) (m : PagedMemory) (a : Z) :
  a ∉ map fst ws -> read_addr (apply_writes ws m) a = read_addr m a.
Proof.
  revert m. induction ws as [|[b v] ws IH]; intros m Hnot; simpl; [done|].
  simpl in Hnot. apply not_elem_of_cons in Hnot as [Hb Hws].
  rewrite IH by done. apply read_write_ne. congruence.
Qed.

End Memory.

(** ** Reasoning about the execution monad *)

Section MonadFacts.

Context (R : ProgramState -> ProgramState -> Prop).
Context `{!Reflexive R} `{!Transitive R}.

Lemma stable_ret {A} (a : A) : stable R (ret a).
Proof. intros s. simpl. reflexivity. Qed.

Lemma stable_panic {A} (w : PanicReason) : stable (A:=A) R (panic w).
Proof. intros s. exact I. Qed.

Lemma stable_gets {A} (g : ProgramState -> A) : stable R (gets g).
Proof. intros s. simpl. reflexivity. Qed.

Lemma stable_modify (f : ProgramState -> ProgramState) :
  (forall s, R s (f s)) -> stable R (modify f).
Proof. intros Hf s. apply Hf. Qed.

Lemma stable_bind {A B} (m : M A) (k : A -> M B) :
  stable R m -> (forall a, stable R (k a)) -> stable R (bind m k).
Proof.
  intros Hm Hk s. unfold bind. specialize (Hm s).
  destruct (m s) as [a s1|e s1|w]; [|done|done].
  specialize (Hk a s1). destruct (k a s1); [etrans; eauto..|done].
Qed.

End MonadFacts.

Lemma no_err_ret {A} (a : A) : no_err (ret a).
Proof. intros s e s'. discriminate. Qed.
Lemma no_err_panic {A} (w : PanicReason) : no_err (A:=A) (panic w).
Proof. intros s e s'. discriminate. Qed.
Lemma no_err_gets {A} (g : ProgramState -> A) : no_err (gets g).
Proof. intros s e s'. discriminate. Qed.
Lemma no_err_modify (f : ProgramState -> ProgramState) : no_err (modify f).
Proof. intros s e s'. discriminate. Qed.
Lemma no_err_bind {A B} (m : M A) (k : A -> M B) :
  no_err m -> (forall a, no_err (k a)) -> no_err (bind m k).
Proof.
  intros Hm Hk s e s'. unfold bind.
  destruct (m s) eqn:E; [apply Hk| |discriminate].
  exfalso. eapply Hm, E.
Qed.

Section Commutes.

(** An update [f] of the input queue only: it keeps every other field and
    commutes with the setters of the other fields. *)
Context (f : ProgramState -> ProgramState).
Hypothesis f_mem : forall s, mem (f s) = mem s.
Hypothesis f_pc : forall s, program_counter (f s) = program_counter s.
Hypothesis f_rb : forall s, relative_base (f s) = relative_base s.
Hypothesis f_outputs : forall s, outputs (f s) = outputs s.
Hypothesis f_set_mem : forall m s, f (set_mem m s) = set_mem m (f s).
Hypothesis f_set_outputs : forall q s, f (set_outputs q s) = set_outputs q (f s).
Hypothesis f_set_pc : forall pc s, f (set_pc pc s) = set_pc pc (f s).
Hypothesis f_set_rb : forall rb s, f (set_relative_base rb s) = set_relative_base rb (f s).
Hypothesis f_set_terminated : forall b s, f (set_terminated b s) = set_terminated b (f s).

Lemma commutes_ret {A} (a : A) : commutes f (ret a).
Proof. intros s. reflexivity. Qed.
Lemma commutes_panic {A} (w : PanicReason) : commutes (A:=A) f (panic w).
Proof. intros s. reflexivity. Qed.
Lemma commutes_gets {A} (g : ProgramState -> A) :
  (forall s, g (f s) = g s) -> commutes f (gets g).
Proof. intros Hg s. unfold gets. simpl. by rewrite Hg. Qed.
Lemma commutes_modify (h : ProgramState -> ProgramState) :
  (forall s, h (f s) = f (h s)) -> commutes f (modify h).
Proof. intros Hh s. unfold modify. simpl. by rewrite Hh. Qed.
Lemma commutes_bind {A B} (m : M A) (k : A -> M B) :
  commutes f m -> (forall a, commutes f (k a)) -> commutes f (bind m k).
Proof.
  intros Hm Hk s. unfold bind. rewrite Hm.
  destruct (m s); simpl; [apply Hk|done|done].
Qed.

Lemma param_read_f (p : Param) (s : ProgramState) : param_read p (f s) = param_read p s.
Proof. unfold param_read. by rewrite f_mem, f_rb. Qed.

Lemma commutes_read_param (ins : Instruction) (idx : nat) : commutes f (read_param ins idx).
Proof.
  unfold read_param. case_match.
  - apply commutes_gets, param_read_f.
  - apply commutes_panic.
Qed.

Lemma commutes_write_param (ins : Instruction) (idx : nat) (v : Z) :
  commutes f (write_param ins idx v).
Proof.
  unfold write_param. case_match; [|apply commutes_panic].
  unfold param_write. case_match; [| apply commutes_panic |];
    apply commutes_modify; intros s; by rewrite f_set_mem, ?f_mem, ?f_rb.
Qed.

Lemma commutes_decode_params (n : nat) (i modes : Z) :
  commutes f (decode_params n i modes).
Proof.
  revert i modes. induction n as [|n IH]; intros i modes; simpl.
  - apply commutes_ret.
  - apply commutes_bind; [|intros md].
    { unfold ParameterMode_from. repeat case_match;
        first [apply commutes_ret | apply commutes_panic]. }
    apply commutes_bind; [|intros c].
    { apply commutes_gets. intros s. by rewrite f_mem, f_pc. }
    apply commutes_bind; [apply IH|intros rest]. apply commutes_ret.
Qed.

Lemma commutes_fetch_and_decode : commutes f fetch_and_decode.
Proof.
  unfold fetch_and_decode.
  apply commutes_bind; [|intros raw].
  { apply commutes_gets. intros s. by rewrite f_mem, f_pc. }
  apply commutes_bind; [|intros op].
  { unfold OpCode_from_element. repeat case_match;
      first [apply commutes_ret | apply commutes_panic]. }
  apply commutes_bind; [apply commutes_decode_params|intros ps].
  apply commutes_ret.
Qed.

Lemma commutes_execute_op (ins : Instruction) :
  opcode ins <> ReadInput -> commutes f (execute_op ins).
Proof.
  intros Hop. unfold execute_op.
  destruct (opcode ins); try congruence;
    repeat first
      [ apply commutes_bind; [|intros ?]
      | apply commutes_ret
      | apply commutes_read_param
      | apply commutes_write_param
      | apply commutes_modify; intros ?;
          rewrite ?f_set_outputs, ?f_set_pc, ?f_set_rb, ?f_set_terminated,
                  ?f_outputs, ?f_rb; reflexivity
      | case_match ].
Qed.

Lemma commutes_advance (ins : Instruction) (jumped : bool) :
  commutes f ((if jumped then ret tt
               else modify (fun s =>
                 set_pc (usize_add (program_counter s) (opcode_length (opcode ins))) s)) ;;;
              ret tt).
Proof.
  apply commutes_bind; [|intros; apply commutes_ret].
  destruct jumped; [apply commutes_ret|].
  apply commutes_modify. intros s. by rewrite f_set_pc, f_pc.
Qed.

End Commutes.

(** ** Single steps *)

Section Step.

Lemma set_inputs_same (s : ProgramState) : set_inputs (inputs s) s = s.
Proof. by destruct s. Qed.

Ltac setter_facts := intros; reflexivity.

Lemma commutes_execute (f : ProgramState -> ProgramState) (ins : Instruction) :
  (forall s, mem (f s) = mem s) ->
  (forall s, program_counter (f s) = program_counter s) ->
  (forall s, relative_base (f s) = relative_base s) ->
  (forall s, outputs (f s) = outputs s) ->
  (forall m s, f (set_mem m s) = set_mem m (f s)) ->
  (forall q s, f (set_outputs q s) = set_outputs q (f s)) ->
  (forall pc s, f (set_pc pc s) = set_pc pc (f s)) ->
  (forall rb s, f (set_relative_base rb s) = set_relative_base rb (f s)) ->
  (forall b s, f (set_terminated b s) = set_terminated b (f s)) ->
  opcode ins <> ReadInput -> commutes f (execute ins).
Proof.
  intros. unfold execute. apply commutes_bind.
  - by apply commutes_execute_op.
  - intros jumped. by apply commutes_advance.
Qed.

Lemma push_inputs_commutes_execute (R : list Z) (ins : Instruction) :
  opcode ins <> ReadInput -> commutes (push_inputs R) (execute ins).
Proof. apply commutes_execute; setter_facts. Qed.

Lemma push_inputs_commutes_fetch (R : list Z) : commutes (push_inputs R) fetch_and_decode.
Proof. apply commutes_fetch_and_decode; setter_facts. Qed.

Lemma set_inputs_commutes_fetch (q : list Z) : commutes (set_inputs q) fetch_and_decode.
Proof. apply commutes_fetch_and_decode; setter_facts. Qed.

Lemma stable_eq_decode_params (n : nat) (i modes : Z) : stable eq (decode_params n i modes).
Proof.
  revert i modes. induction n as [|n IH]; intros i modes; simpl; [apply stable_ret; apply _|].
  apply stable_bind; [apply _..| |intros md].
  { unfold ParameterMode_from. repeat case_match;
      first [apply stable_ret | apply stable_panic]; apply _. }
  apply stable_bind; [apply _..|apply stable_gets; apply _|intros c].
  apply stable_bind; [apply _..|apply IH|intros rest]. apply stable_ret; apply _.
Qed.

Lemma no_err_decode_params (n : nat) (i modes : Z) : no_err (decode_params n i modes).
Proof.
  revert i modes. induction n as [|n IH]; intros i modes; simpl; [apply no_err_ret|].
  apply no_err_bind; [|intros md].
  { unfold ParameterMode_from. repeat case_match;
      first [apply no_err_ret | apply no_err_panic]. }
  apply no_err_bind; [apply no_err_gets|intros c].
  apply no_err_bind; [apply IH|intros rest]. apply no_err_ret.
Qed.

(** Decoding reads the state and never changes it. *)
Lemma fetch_and_decode_pure (s : ProgramState) :
  (exists ins, fetch_and_decode s = ROk ins s) \/
  (exists why, fetch_and_decode s = RPanic why).
Proof.
  assert (Hst : stable eq fetch_and_decode).
  { unfold fetch_and_decode.
    apply stable_bind; [apply _..|apply stable_gets; apply _|intros raw].
    apply stable_bind; [apply _..| |intros op].
    { unfold OpCode_from_element. repeat case_match;
        first [apply stable_ret | apply stable_panic]; apply _. }
    apply stable_bind; [apply _..|apply stable_eq_decode_params|intros ps].
    apply stable_ret; apply _. }
  assert (Hne : no_err fetch_and_decode).
  { unfold fetch_and_decode.
    apply no_err_bind; [apply no_err_gets|intros raw].
    apply no_err_bind; [|intros op].
    { unfold OpCode_from_element. repeat case_match;
        first [apply no_err_ret | apply no_err_panic]. }
    apply no_err_bind; [apply no_err_decode_params|intros ps]. apply no_err_ret. }
  specialize (Hst s). specialize (Hne s).
  destruct (fetch_and_decode s) as [ins s'|e s'|why]; subst.
  - left. by exists ins.
  - exfalso. by eapply Hne.
  - right. by exists why.
Qed.

Lemma execute_read_input_empty (ins : Instruction) (s : ProgramState) :
  opcode ins = ReadInput -> inputs s = [] -> execute ins s = RErr NoInput s.
Proof.
  intros Hop Hin. unfold execute, execute_op. rewrite Hop.
  unfold bind at 1 2, pop_input. rewrite Hin. simpl.
  rewrite <- Hin, set_inputs_same. reflexivity.
Qed.

Lemma bind_assoc {A B C} (m : M A) (k : A -> M B) (h : B -> M C) (s : ProgramState) :
  bind (bind m k) h s = bind m (fun a => bind (k a) h) s.
Proof. unfold bind. by destruct (m s). Qed.

Lemma bind_pop_input {A} (k : Z -> M A) (s : ProgramState) (x : Z) (q : list Z) :
  inputs s = x :: q -> bind pop_input k s = k x (set_inputs q s).
Proof. intros Hin. unfold bind, pop_input. by rewrite Hin. Qed.

Lemma execute_read_input_push (R : list Z) (ins : Instruction) (s : ProgramState) :
  opcode ins = ReadInput -> inputs s <> [] ->
  execute ins (push_inputs R s) = res_map (push_inputs R) (execute ins s).
Proof.
  intros Hop Hin. destruct (inputs s) as [|x q] eqn:Hq; [done|].
  assert (Hexec : execute_op ins = (input <- pop_input ;; write_param ins 0 input ;;; ret false))
    by (unfold execute_op; by rewrite Hop).
  unfold execute. rewrite Hexec, !bind_assoc.
  rewrite (bind_pop_input _ (push_inputs R s) x (q ++ R)) by (simpl; by rewrite Hq).
  rewrite (bind_pop_input _ s x q) by done.
  replace (set_inputs (q ++ R) (push_inputs R s)) with (push_inputs R (set_inputs q s))
    by (destruct s; reflexivity).
  apply (commutes_bind (push_inputs R)); [setter_facts..| |].
  - apply commutes_bind; [setter_facts..|apply commutes_write_param; setter_facts|].
    intros; apply commutes_ret.
  - intros jumped. apply commutes_advance; setter_facts.
Qed.

(** Only [ReadInput] on an empty queue returns [Err], and it returns the
    state unchanged. *)
Lemma execute_err (ins : Instruction) (s s' : ProgramState) (e : ExecuteError) :
  execute ins s = RErr e s' -> opcode ins = ReadInput /\ inputs s = [] /\ s' = s.
Proof.
  intros H.
  destruct (decide (opcode ins = ReadInput)) as [Hop|Hop].
  - destruct (inputs s) eqn:Hin.
    + rewrite execute_read_input_empty in H by done. by inversion H.
    + exfalso. revert H.
      unfold execute, execute_op. rewrite Hop.
      unfold bind at 1 2, pop_input. rewrite Hin. simpl.
      apply no_err_bind; [|intros; apply no_err_bind; [|intros; apply no_err_ret]].
      * apply no_err_bind; [|intros; apply no_err_ret].
        unfold write_param, param_write. repeat case_match;
          first [apply no_err_modify | apply no_err_panic].
      * case_match; [apply no_err_ret|apply no_err_modify].
  - exfalso. revert H. unfold execute.
    apply no_err_bind; [|intros jumped; apply no_err_bind;
      [case_match; [apply no_err_ret|apply no_err_modify]|intros; apply no_err_ret]].
    unfold execute_op, read_param, write_param, param_write.
    destruct (opcode ins); try congruence;
      repeat first
        [ apply no_err_bind; [|intros ?]
        | apply no_err_ret | apply no_err_panic | apply no_err_gets | apply no_err_modify
        | case_match ].
Qed.

Lemma progress_state_err (s s' : ProgramState) (e : ExecuteError) :
  progress_state s = RErr e s' ->
  (exists ins, fetch_and_decode s = ROk ins s /\ opcode ins = ReadInput) /\
  inputs s = [] /\ s' = s.
Proof.
  unfold progress_state, bind.
  destruct (fetch_and_decode_pure s) as [[ins Hf]|[why Hf]]; rewrite Hf; [|discriminate].
  intros H. apply execute_err in H as (Hop & Hin & ->). eauto.
Qed.

End Step.

Lemma progress_push (R : list Z) (s : ProgramState) :
  progress_state (push_inputs R s) = res_map (push_inputs R) (progress_state s) \/
  (inputs s = [] /\ progress_state s = RErr NoInput s).
Proof.
  unfold progress_state, bind at 1 2.
  rewrite push_inputs_commutes_fetch.
  destruct (fetch_and_decode_pure s) as [[ins Hf]|[why Hf]]; rewrite Hf; simpl; [|by left].
  destruct (decide (opcode ins = ReadInput)) as [Hop|Hop].
  - destruct (inputs s) eqn:Hin.
    + right. split; [done|]. unfold bind. rewrite Hf. by apply execute_read_input_empty.
    + left. apply execute_read_input_push; [done|]. by rewrite Hin.
  - left. by apply push_inputs_commutes_execute.
Qed.

(** ** Run loops *)

Section Runs.

Lemma run_to_completion_mono (n m : nat) (s : ProgramState) :
  run_to_completion n s <> OutOfFuel -> (n <= m)%nat ->
  run_to_completion m s = run_to_completion n s.
Proof.
  revert m s. induction n as [|n IH]; intros m s Hn Hle; simpl in *.
  - destruct (terminated s) eqn:Ht; [|by contradiction Hn]. destruct m; simpl; by rewrite Ht.
  - destruct (terminated s) eqn:Ht.
    + destruct m; simpl; by rewrite Ht.
    + destruct m as [|m]; [lia|]. simpl. rewrite Ht.
      destruct (progress_state s) as [u s'|e s'|why]; [|done|done].
      apply IH; [done|lia].
Qed.

Lemma push_inputs_app (p q : list Z) (s : ProgramState) :
  push_inputs (p ++ q) s = push_inputs q (push_inputs p s).
Proof. destruct s. unfold push_inputs, set_inputs. simpl. by rewrite app_assoc. Qed.

Lemma push_inputs_nil (s : ProgramState) : push_inputs [] s = s.
Proof. destruct s. unfold push_inputs, set_inputs. simpl. by rewrite app_nil_r. Qed.

Lemma run_to_completion_stuck (n : nat) (s : ProgramState) :
  terminated s = false -> progress_state s = RErr NoInput s ->
  run_to_completion n s = OutOfFuel \/
  run_to_completion n s = Panicked (ExecutionErrorWhileRunningToCompletion NoInput).
Proof.
  intros Ht Hp. destruct n; simpl; rewrite Ht; [by left|]. rewrite Hp. by right.
Qed.

(** One [run_to_next_input] call on a state holding a prefix of the input
    that a [run_to_completion] consumes follows the same trajectory: it
    either terminates in the same state, or stops on an empty queue at a
    state from which [run_to_completion] with the rest of the input
    reaches the same final state. *)
Lemma run_to_next_input_prefix (n : nat) (st T : ProgramState) (R : list Z) :
  run_to_completion n (push_inputs R st) = Finished T ->
  exists S1, run_to_next_input n st = Finished S1 /\
    ((terminated S1 = true /\ T = push_inputs R S1) \/
     (terminated S1 = false /\ inputs S1 = [] /\ progress_state S1 = RErr NoInput S1 /\
      run_to_completion n (push_inputs R S1) = Finished T)).
Proof.
  revert st. induction n as [|n IH]; intros st Hrun.
  - simpl in *. destruct (terminated st) eqn:Ht; [|discriminate].
    exists st. split; [done|]. left. split; [done|]. congruence.
  - destruct (terminated st) eqn:Ht.
    { simpl in *. rewrite Ht in *. exists st. split; [done|]. left. split; [done|]. congruence. }
    destruct (progress_state st) as [u st'|e st'|why] eqn:Hp.
    + destruct (progress_push R st) as [Hc|[_ Hc]]; [|congruence].
      rewrite Hp in Hc. simpl in Hrun, Hc. rewrite Ht, Hc in Hrun.
      destruct (IH st' Hrun) as (S1 & H1 & Hcase).
      exists S1. split; [simpl; by rewrite Ht, Hp|].
      destruct Hcase as [Ha|(Hb1 & Hb2 & Hb3 & Hb4)]; [by left|].
      right. repeat split; try done.
      rewrite (run_to_completion_mono n (S n)); [done|congruence|lia].
    + pose proof Hp as Herr. apply progress_state_err in Herr as (_ & Hin & ->).
      destruct e. exists st. split; [simpl; by rewrite Ht, Hp|].
      right. repeat split; done.
    + destruct (progress_push R st) as [Hc|[_ Hc]]; [|congruence].
      rewrite Hp in Hc. simpl in Hrun, Hc. by rewrite Ht, Hc in Hrun.
Qed.

Lemma run_in_portions_terminated (n : nat) (ps : list (list Z)) (st : ProgramState) :
  terminated st = true -> run_in_portions n ps st = Finished (push_inputs (concat ps) st).
Proof.
  revert st. induction ps as [|p ps IH]; intros st Ht; simpl.
  - by rewrite push_inputs_nil.
  - assert (Hrun : run_to_next_input n (push_inputs p st) = Finished (push_inputs p st))
      by (destruct n; simpl; by rewrite Ht).
    rewrite Hrun, IH by done. by rewrite push_inputs_app.
Qed.

Lemma run_in_portions_refines (n : nat) (ps : list (list Z)) (st T : ProgramState) :
  ps <> [] -> run_to_completion n (push_inputs (concat ps) st) = Finished T ->
  run_in_portions n ps st = Finished T.
Proof.
  revert st. induction ps as [|p ps IH]; intros st Hne Hrun; [done|].
  simpl in *. rewrite push_inputs_app in Hrun.
  destruct (run_to_next_input_prefix n (push_inputs p st) T (concat ps) Hrun)
    as (S1 & H1 & [(Ht & ->)|(Ht & Hin & Hp & Hrun1)]); rewrite H1.
  - by apply run_in_portions_terminated.
  - destruct ps as [|p' ps'].
    + simpl in Hrun1. rewrite push_inputs_nil in Hrun1.
      destruct (run_to_completion_stuck n S1 Ht Hp); congruence.
    + apply IH; [done|done].
Qed.

End Runs.

(** ** Decoding *)

Section Decode.

Lemma mode_from_spec (d : Z) (s : ProgramState) :
  match mode_of_digit d with
  | Some md => ParameterMode_from d s = ROk md s
  | None => exists why, ParameterMode_from d s = RPanic why
  end.
Proof. unfold ParameterMode_from, mode_of_digit. repeat case_match; simplify_eq; eauto. Qed.

Lemma opcode_from_spec (w : Z) (s : ProgramState) :
  match opcode_of_code (Z.rem w 100) with
  | Some op => OpCode_from_element w s = ROk op s
  | None => exists why, OpCode_from_element w s = RPanic why
  end.
Proof. unfold OpCode_from_element, opcode_of_code. repeat case_match; simplify_eq; eauto. Qed.

(** Rust's [%] on a negative word is never positive, so no opcode matches. *)
Lemma opcode_from_negative (w : Z) (s : ProgramState) :
  w < 0 -> exists why, OpCode_from_element w s = RPanic why.
Proof.
  intros Hw. unfold OpCode_from_element.
  pose proof (Z.rem_nonpos w 100 ltac:(lia) ltac:(lia)) as Hr.
  destruct (Z.rem w 100) as [|p|p]; [eauto|lia|eauto].
Qed.

(** The panic is [UnrecognizedOpcode] with the code [w % 100] itself. *)
Lemma opcode_from_negative_unrecognized (w : Z) (s : ProgramState) :
  w < 0 -> OpCode_from_element w s = RPanic (UnrecognizedOpcode (Z.rem w 100)).
Proof.
  intros Hw. unfold OpCode_from_element.
  pose proof (Z.rem_nonpos w 100 ltac:(lia) ltac:(lia)) as Hr.
  remember (Z.rem w 100) as r eqn:Er.
  destruct r as [|p|p]; [done|lia|done].
Qed.

Lemma opcode_from_nonneg (w : Z) (s : ProgramState) :
  0 <= w ->
  match opcode_of_code (w mod 100) with
  | Some op => OpCode_from_element w s = ROk op s
  | None => exists why, OpCode_from_element w s = RPanic why
  end.
Proof.
  intros Hw. pose proof (opcode_from_spec w s) as H.
  by rewrite Z.rem_mod_nonneg in H by lia.
Qed.

Lemma digit_step (modes : Z) :
  0 <= modes -> as_u8 (Z.rem modes 10) = modes mod 10 /\ Z.quot modes 10 = modes / 10.
Proof.
  intros Hm. rewrite Z.rem_mod_nonneg, Z.quot_div_nonneg by lia. split; [|done].
  unfold as_u8. apply Z.mod_small.
  pose proof (Z.mod_pos_bound modes 10). lia.
Qed.

Lemma decode_params_spec (w : Z) (s : ProgramState) (k i : nat) :
  0 <= w ->
  match spec_params w s k i with
  | Some ps => decode_params k (Z.of_nat i + 1) ((w / 100) / 10 ^ Z.of_nat i) s = ROk ps s
  | None => exists why,
      decode_params k (Z.of_nat i + 1) ((w / 100) / 10 ^ Z.of_nat i) s = RPanic why
  end.
Proof.
  intros Hw. revert i. induction k as [|k IH]; intros i; [done|].
  cbn [spec_params decode_params].
  set (modes := (w / 100) / 10 ^ Z.of_nat i).
  assert (Hm : 0 <= modes) by (apply Z.div_pos; [apply Z.div_pos|]; lia).
  destruct (digit_step modes Hm) as [Hd Hq]. rewrite Hd, Hq.
  assert (Hnext : modes / 10 = (w / 100) / 10 ^ Z.of_nat (S i)).
  { unfold modes. rewrite Z.div_div by lia. f_equal.
    rewrite Nat2Z.inj_succ, Z.pow_succ_r by lia. lia. }
  assert (Hi : Z.of_nat i + 1 + 1 = Z.of_nat (S i) + 1) by lia.
  pose proof (mode_from_spec (modes mod 10) s) as Hmode.
  unfold bind, gets.
  destruct (mode_of_digit (modes mod 10)) as [md|]; [|destruct Hmode as [why Hmode]];
    rewrite Hmode; [|eauto].
  specialize (IH (S i)). rewrite <- Hnext, <- Hi in IH.
  destruct (spec_params w s k (S i)) as [rest|]; [|destruct IH as [why IH]];
    rewrite IH; [done|eauto].
Qed.

(** [fetch_and_decode] decodes a non-negative word as the specification
    words it and panics on every negative word. *)
Lemma fetch_and_decode_spec (s : ProgramState) :
  decodes_as (if read_addr (mem s) (program_counter s) <? 0 then None else spec_decode s) s.
Proof.
  unfold decodes_as, spec_decode, fetch_and_decode, bind, gets.
  set (w := read_addr (mem s) (program_counter s)).
  destruct (Z.ltb_spec w 0) as [Hw|Hw].
  - destruct (opcode_from_negative w s Hw) as [why Hwhy]. rewrite Hwhy. eauto.
  - pose proof (opcode_from_nonneg w s Hw) as Hop.
    destruct (opcode_of_code (w mod 100)) as [op|]; [|destruct Hop as [why Hop]];
      rewrite Hop; [|eauto].
    pose proof (decode_params_spec w s (Z.to_nat (opcode_length op - 1)) 0 Hw) as Hd.
    rewrite Z.pow_0_r, Z.div_1_r, Z.add_0_l in Hd.
    rewrite <- Z.quot_div_nonneg in Hd by lia.
    destruct (spec_params w s (Z.to_nat (opcode_length op - 1)) 0) as [ps|];
      [|destruct Hd as [why Hd]]; rewrite Hd; [done|eauto].
Qed.

End Decode.

(** ** Invariants of a step *)

#[global] Instance rb_kept_refl : Reflexive rb_kept.
Proof. intros s. reflexivity. Qed.
#[global] Instance rb_kept_trans : Transitive rb_kept.
Proof. intros s1 s2 s3 H12 H23. unfold rb_kept in *. congruence. Qed.
#[global] Instance term_kept_refl : Reflexive term_kept.
Proof. intros s H. exact H. Qed.
#[global] Instance term_kept_trans : Transitive term_kept.
Proof. intros s1 s2 s3 H12 H23 H. auto. Qed.

Section Invariants.

Context (R : ProgramState -> ProgramState -> Prop) `{!Reflexive R} `{!Transitive R}.
Hypothesis R_mem : forall s m, R s (set_mem m s).
Hypothesis R_inputs : forall s q, R s (set_inputs q s).
Hypothesis R_outputs : forall s q, R s (set_outputs q s).
Hypothesis R_pc : forall s pc, R s (set_pc pc s).
Hypothesis R_terminate : forall s, R s (set_terminated true s).

Lemma stable_pop_input : stable R pop_input.
Proof. intros s. unfold pop_input. destruct (pop_front (inputs s)) as [[x|] q]; apply R_inputs. Qed.

Lemma stable_read_param (ins : Instruction) (idx : nat) : stable R (read_param ins idx).
Proof.
  unfold read_param. case_match; [apply stable_gets|apply stable_panic]; apply _.
Qed.

Lemma stable_write_param (ins : Instruction) (idx : nat) (v : Z) : stable R (write_param ins idx v).
Proof.
  unfold write_param. case_match; [|apply stable_panic].
  unfold param_write. case_match; [| apply stable_panic |];
    apply stable_modify; intros; apply R_mem.
Qed.

Lemma stable_execute (ins : Instruction) :
  (opcode ins = AdjustRelativeBase -> forall s rb, R s (set_relative_base rb s)) ->
  stable R (execute ins).
Proof.
  intros R_rb. unfold execute.
  apply stable_bind; [apply _..| |intros jumped].
  - unfold execute_op.
    destruct (opcode ins) eqn:Hop;
      repeat first
        [ apply stable_bind; [apply _..| |intros ?]
        | apply stable_ret; apply _
        | apply stable_pop_input
        | apply stable_read_param
        | apply stable_write_param
        | apply stable_modify; intros ?;
            first [ apply R_outputs | apply R_pc | apply R_terminate | by apply R_rb ]
        | case_match ].
  - apply stable_bind; [apply _..| |intros; apply stable_ret; apply _].
    destruct jumped; [apply stable_ret; apply _|].
    apply stable_modify. intros; apply R_pc.
Qed.

End Invariants.

Lemma execute_keeps_relative_base (ins : Instruction) :
  opcode ins <> AdjustRelativeBase -> stable rb_kept (execute ins).
Proof.
  intros Hop. apply stable_execute; try apply _; try (intros; unfold rb_kept; reflexivity).
  intros H. congruence.
Qed.

Lemma execute_keeps_terminated (ins : Instruction) : stable term_kept (execute ins).
Proof. apply stable_execute; try apply _; intros; unfold term_kept; done. Qed.

Lemma as_usize_isize_wrap (z : Z) : as_usize (isize_wrap z) = as_usize z.
Proof.
  unfold as_usize, isize_wrap.
  rewrite Zminus_mod, Zmod_mod, <- Zminus_mod.
  replace (z + 2 ^ 63 - 2 ^ 63) with z by lia. reflexivity.
Qed.

(** * The specification's claims *)

(** C1: feeding the input in portions, each pushed before a call of
    [run_to_next_input], ends in the same output queue (indeed the same
    state) as one [run_to_completion] with the whole input pre-loaded,
    whenever that run completes normally. *)
Theorem split_input_runs_match_run_to_completion
    (image : list Z) (portions : list (list Z)) (n : nat) (T : ProgramState) :
  portions <> [] ->
  run_to_completion n (ProgramState_new image (concat portions)) = Finished T ->
  exists T', run_in_portions n portions (ProgramState_new image []) = Finished T' /\
             outputs T' = outputs T.
Proof.
  intros Hne Hrun. exists T. split; [|done].
  apply run_in_portions_refines; [done|]. exact Hrun.
Qed.

Lemma split_input_runs_witness :
  outputs_of (run_to_completion 10 (ProgramState_new [3;9;3;10;4;9;4;10;99] [5;7]))
    = Some [5;7] /\
  exists T', run_in_portions 10 [[5];[7]] (ProgramState_new [3;9;3;10;4;9;4;10;99] [])
               = Finished T' /\ outputs T' = [5;7].
Proof.
  split; [vm_compute; reflexivity|].
  destruct (split_input_runs_match_run_to_completion [3;9;3;10;4;9;4;10;99] [[5];[7]] 10
              (match run_to_completion 10 (ProgramState_new [3;9;3;10;4;9;4;10;99] [5;7]) with
               | Finished t => t | _ => ProgramState_new [] [] end))
    as (T' & H1 & H2); [discriminate|vm_compute; reflexivity|].
  exists T'. split; [exact H1|]. rewrite H2. vm_compute. reflexivity.
Defined.

(** C2: on a memory built by writes from an empty one, a never-written
    address (of any size) reads as zero; a written value is read back until
    the next write to the same address; and the page indexing of a read or
    write never goes out of bounds. *)
Theorem paged_memory_read_write_contract (ws ws' : list (Z * Z)) (a v : Z) :
  (a ∉ map fst ws -> read_addr (mem_of_writes ws) a = 0) /\
  (a ∉ map fst ws' ->
     read_addr (apply_writes ws' (write_addr (mem_of_writes ws) a v)) a = v) /\
  (forall page, pages (mem_of_writes ws) !! (a / PAGE_SIZE) = Some page ->
     (Z.to_nat (a mod PAGE_SIZE) < length page)%nat).
Proof.
  assert (Hwf : mem_wf (mem_of_writes ws)) by apply mem_wf_apply_writes, mem_wf_new.
  split; [|split].
  - intros Hnot. unfold mem_of_writes.
    rewrite read_apply_writes_other by done. apply read_new.
  - intros Hnot. rewrite read_apply_writes_other by done.
    by apply read_write_eq.
  - intros page Hp. by eapply mem_wf_in_bounds.
Qed.

Lemma paged_memory_read_write_witness :
  read_addr (mem_of_writes [(1234, 42)]) 10000000 = 0 /\
  read_addr (apply_writes [(7, 1)] (write_addr (mem_of_writes [(1234, 42)]) 10000000 5))
    10000000 = 5.
Proof.
  destruct (paged_memory_read_write_contract [(1234, 42)] [(7, 1)] 10000000 5)
    as (H1 & H2 & _).
  split; [apply H1 | apply H2]; simpl; intros Hin;
    repeat (apply elem_of_cons in Hin as [Hin|Hin]; [discriminate|]);
    by apply not_elem_of_nil in Hin.
Defined.

(** C3, as stated (opcode [w mod 100] with the mathematical modulo) fails
    on the word [-1]: [(-1) mod 100 = 99] is [Terminate], but the code
    computes Rust's truncating [-1 % 100 = -1] and panics. *)
Lemma decode_negative_word_counterexample :
  ~ decodes_as (spec_decode (ProgramState_new [-1] [])) (ProgramState_new [-1] []).
Proof. vm_compute. discriminate. Qed.

(** C3 (amended): a non-negative instruction word [w] is decoded with
    opcode [w mod 100] and the mode of parameter [i] given by the [i]-th
    decimal digit of [w / 100] (0 Position, 1 Immediate, 2 Relative),
    decoding panicking exactly when the opcode or one of the [N] mode digits
    is undefined; every negative word [w] panics as an unrecognized opcode,
    with the code [w % 100] (between -99 and 0), since Rust's [%] keeps the
    sign of [w]. *)
Theorem decode_uses_truncated_remainder (s : ProgramState) :
  if read_addr (mem s) (program_counter s) <? 0
  then fetch_and_decode s =
         RPanic (UnrecognizedOpcode (Z.rem (read_addr (mem s) (program_counter s)) 100))
  else decodes_as (spec_decode s) s.
Proof.
  pose proof (fetch_and_decode_spec s) as Hd.
  destruct (Z.ltb_spec (read_addr (mem s) (program_counter s)) 0) as [Hw|Hw]; [|exact Hd].
  unfold fetch_and_decode, bind, gets. cbv beta iota.
  by rewrite (opcode_from_negative_unrecognized _ s Hw).
Qed.

(** C4: a [ReadInput] on an empty queue returns the recoverable [NoInput]
    error (so [run_to_next_input] returns normally) with the program
    counter and relative base unchanged; after more input is pushed, the
    next step decodes the same [ReadInput] at the same program counter and
    executes it. *)
Theorem read_input_empty_queue_resumable (s : ProgramState) (ins : Instruction) :
  fetch_and_decode s = ROk ins s -> opcode ins = ReadInput -> inputs s = [] ->
  exists s', progress_state s = RErr NoInput s' /\
    program_counter s' = program_counter s /\ relative_base s' = relative_base s /\
    (forall n, run_to_next_input (S n) s = Finished s') /\
    (forall xs, program_counter (push_inputs xs s') = program_counter s /\
       fetch_and_decode (push_inputs xs s') = ROk ins (push_inputs xs s') /\
       progress_state (push_inputs xs s') = execute ins (push_inputs xs s')).
Proof.
  intros Hf Hop Hin.
  assert (Hp : progress_state s = RErr NoInput s).
  { unfold progress_state, bind. rewrite Hf. by apply execute_read_input_empty. }
  exists s. split; [done|]. split; [done|]. split; [done|]. split.
  - intros n. simpl. destruct (terminated s); [done|]. by rewrite Hp.
  - intros xs.
    assert (Hf' : fetch_and_decode (push_inputs xs s) = ROk ins (push_inputs xs s))
      by (rewrite push_inputs_commutes_fetch, Hf; reflexivity).
    split; [done|]. split; [done|].
    unfold progress_state, bind. by rewrite Hf'.
Qed.

Lemma read_input_empty_queue_witness :
  exists s', progress_state (ProgramState_new [3;0;99] []) = RErr NoInput s' /\
    outputs_of (run_to_next_input 10 (push_inputs [42] s')) <> None.
Proof.
  destruct (read_input_empty_queue_resumable (ProgramState_new [3;0;99] [])
              {| opcode := ReadInput; parameters := [{| mode := Position; contents := 0 |}] |})
    as (s' & Hp & _); [vm_compute; reflexivity | reflexivity | reflexivity |].
  exists s'. split; [exact Hp|].
  vm_compute in Hp. injection Hp as <-. vm_compute. discriminate.
Defined.

(** C5: if the loop of [run_to_completion] reaches a [ReadInput] on an
    empty input queue, [run_to_completion] panics (with the failed
    [expect]) for every sufficient fuel: it neither returns normally nor
    loops forever. *)
Theorem run_to_completion_fatal_on_missing_input
    (s t : ProgramState) (ins : Instruction) :
  steps_to s t -> terminated t = false ->
  fetch_and_decode t = ROk ins t -> opcode ins = ReadInput -> inputs t = [] ->
  exists n0, forall n, (n0 <= n)%nat ->
    run_to_completion n s = Panicked (ExecutionErrorWhileRunningToCompletion NoInput).
Proof.
  intros Hsteps Ht Hf Hop Hin.
  assert (Hp : progress_state t = RErr NoInput t).
  { unfold progress_state, bind. rewrite Hf. by apply execute_read_input_empty. }
  induction Hsteps as [t|s s' t Hts Hps Hsteps IH].
  - exists 1%nat. intros n Hn. destruct n as [|n]; [lia|]. simpl. by rewrite Ht, Hp.
  - destruct (IH Ht Hf Hin Hp) as [n0 Hn0]. exists (S n0). intros n Hn.
    destruct n as [|n]; [lia|]. simpl. rewrite Hts, Hps. apply Hn0. lia.
Qed.

Lemma run_to_completion_fatal_witness :
  exists n0, forall n, (n0 <= n)%nat ->
    run_to_completion n (ProgramState_new [4;0;3;0;99] []) =
      Panicked (ExecutionErrorWhileRunningToCompletion NoInput).
Proof.
  apply (run_to_completion_fatal_on_missing_input _
           (set_outputs [4] (set_pc 2 (ProgramState_new [4;0;3;0;99] [])))
           {| opcode := ReadInput; parameters := [{| mode := Position; contents := 0 |}] |}).
  - eapply steps_step; [reflexivity | vm_compute; reflexivity | apply steps_refl].
  - reflexivity.
  - vm_compute. reflexivity.
  - reflexivity.
  - reflexivity.
Defined.

(** C6: a Relative parameter with operand [k] reads and writes exactly as
    a Position parameter with operand [relative_base + k]; and executing
    any instruction other than [AdjustRelativeBase] leaves the relative
    base unchanged. *)
Theorem relative_mode_is_position_at_base_offset :
  (forall (s : ProgramState) (k : Z),
     param_read {| mode := Relative; contents := k |} s =
       param_read {| mode := Position; contents := relative_base s + k |} s /\
     forall v, param_write {| mode := Relative; contents := k |} v s =
       param_write {| mode := Position; contents := relative_base s + k |} v s) /\
  (forall (ins : Instruction) (s s' : ProgramState),
     opcode ins <> AdjustRelativeBase -> final_state (execute ins s) = Some s' ->
     relative_base s' = relative_base s).
Proof.
  split.
  - intros s k. split.
    + unfold param_read, isize_add. cbn [mode contents]. by rewrite as_usize_isize_wrap.
    + intros v. unfold param_write, isize_add, modify. cbn [mode contents].
      by rewrite as_usize_isize_wrap.
  - intros ins s s' Hop Hfin.
    pose proof (execute_keeps_relative_base ins Hop s) as Hst.
    destruct (execute ins s); simpl in Hfin; inversion Hfin; subst; exact Hst.
Qed.

Lemma relative_mode_witness :
  exists s', final_state (execute {| opcode := Add;
                                    parameters := [{| mode := Position; contents := 0 |};
                                                   {| mode := Relative; contents := 1 |};
                                                   {| mode := Relative; contents := -3 |}] |}
                                  (set_relative_base 3 (ProgramState_new [1;0;0;0;99] [])))
               = Some s' /\ relative_base s' = 3.
Proof.
  destruct relative_mode_is_position_at_base_offset as [_ Hrb].
  eexists. split; [reflexivity|].
  apply (Hrb {| opcode := Add;
                parameters := [{| mode := Position; contents := 0 |};
                               {| mode := Relative; contents := 1 |};
                               {| mode := Relative; contents := -3 |}] |}
             (set_relative_base 3 (ProgramState_new [1;0;0;0;99] []))).
  - discriminate.
  - reflexivity.
Defined.

(** C7: the reference branch program outputs 0 for input 0 and 1 for any
    nonzero input. *)
Theorem branch_program_outputs :
  outputs_of (run_to_completion 10 (ProgramState_new branch_program [0])) = Some [0] /\
  forall x, x <> 0 ->
    outputs_of (run_to_completion 10 (ProgramState_new branch_program [x])) = Some [1].
Proof.
  split; [vm_compute; reflexivity|].
  intros x Hx. destruct x as [|p|p]; [done| |]; vm_compute; reflexivity.
Qed.

Lemma branch_program_witness :
  (4 <> 0) /\ outputs_of (run_to_completion 10 (ProgramState_new branch_program [4])) = Some [1].
Proof.
  split; [discriminate|]. apply (proj2 branch_program_outputs 4). discriminate.
Defined.

(** C8: a new state is not terminated; no step turns the flag from true to
    false; and on a terminated state both run loops return at once, with
    the state unchanged. *)
Theorem terminated_flag_monotone :
  (forall image ins, terminated (ProgramState_new image ins) = false) /\
  (forall s s', final_state (progress_state s) = Some s' ->
     terminated s = true -> terminated s' = true) /\
  (forall s n, terminated s = true ->
     run_to_next_input n s = Finished s /\ run_to_completion n s = Finished s).
Proof.
  split; [done|]. split.
  - intros s s' Hfin Ht. unfold progress_state, bind in Hfin.
    destruct (fetch_and_decode_pure s) as [[ins Hf]|[why Hf]]; rewrite Hf in Hfin;
      [|discriminate].
    pose proof (execute_keeps_terminated ins s) as Hst.
    destruct (execute ins s); simpl in Hfin; inversion Hfin; subst; by apply Hst.
  - intros s n Ht. destruct n; simpl; by rewrite Ht.
Qed.

Lemma terminated_flag_witness :
  exists s', final_state (progress_state (set_terminated true (ProgramState_new [99] [])))
               = Some s' /\ terminated s' = true /\
  run_to_completion 3 (set_terminated true (ProgramState_new [99] [])) =
    Finished (set_terminated true (ProgramState_new [99] [])).
Proof.
  destruct terminated_flag_monotone as (_ & Hstep & Hrun).
  eexists. split; [reflexivity|]. split.
  - apply (Hstep (set_terminated true (ProgramState_new [99] []))); reflexivity.
  - apply (Hrun (set_terminated true (ProgramState_new [99] [])) 3%nat). reflexivity.
Defined.

(** C9: a step failing with [NoInput] leaves the whole state unchanged
    (memory, both queues, counters and flag). *)
Theorem needs_input_step_is_atomic (s s' : ProgramState) (e : ExecuteError) :
  progress_state s = RErr e s' -> s' = s.
Proof. intros H. by apply progress_state_err in H as (_ & _ & ->). Qed.

Lemma needs_input_step_witness :
  progress_state (ProgramState_new [3;0;99] [1]) <> RErr NoInput (ProgramState_new [3;0;99] [1]) /\
  exists s', progress_state (ProgramState_new [3;0;99] []) = RErr NoInput s' /\
             s' = ProgramState_new [3;0;99] [].
Proof.
  split; [vm_compute; discriminate|].
  eexists. split; [vm_compute; reflexivity|].
  apply (needs_input_step_is_atomic (ProgramState_new [3;0;99] []) _ NoInput).
  vm_compute. reflexivity.
Defined.

(** C10: a negative Position operand, or a negative Relative effective
    address, is not a fault: it is cast to an address modulo 2^64, and on
    a memory built by writes that never touched that address it reads 0. *)
Theorem negative_address_wraps (ws : list (Z * Z)) (s : ProgramState) (k v : Z) :
  mem s = mem_of_writes ws ->
  (k < 0 ->
     param_read {| mode := Position; contents := k |} s = read_addr (mem s) (k mod 2 ^ 64) /\
     param_write {| mode := Position; contents := k |} v s =
       ROk tt (set_mem (write_addr (mem s) (k mod 2 ^ 64) v) s) /\
     (k mod 2 ^ 64 ∉ map fst ws -> param_read {| mode := Position; contents := k |} s = 0)) /\
  (relative_base s + k < 0 ->
     param_read {| mode := Relative; contents := k |} s =
       read_addr (mem s) ((relative_base s + k) mod 2 ^ 64) /\
     param_write {| mode := Relative; contents := k |} v s =
       ROk tt (set_mem (write_addr (mem s) ((relative_base s + k) mod 2 ^ 64) v) s) /\
     ((relative_base s + k) mod 2 ^ 64 ∉ map fst ws ->
        param_read {| mode := Relative; contents := k |} s = 0)).
Proof.
  intros Hmem.
  assert (Hpos : param_read {| mode := Position; contents := k |} s =
                 read_addr (mem s) (k mod 2 ^ 64)) by reflexivity.
  assert (Hrel : param_read {| mode := Relative; contents := k |} s =
                 read_addr (mem s) ((relative_base s + k) mod 2 ^ 64)).
  { unfold param_read, isize_add. cbn [mode contents]. by rewrite as_usize_isize_wrap. }
  split; intros _; split; [done| |done| ].
  - split; [reflexivity|]. intros Hnot. rewrite Hpos, Hmem.
    unfold mem_of_writes. rewrite read_apply_writes_other by done. apply read_new.
  - split.
    + unfold param_write, isize_add, modify. cbn [mode contents].
      by rewrite as_usize_isize_wrap.
    + intros Hnot. rewrite Hrel, Hmem.
      unfold mem_of_writes. rewrite read_apply_writes_other by done. apply read_new.
Qed.

Lemma negative_address_witness :
  param_read {| mode := Position; contents := -1 |} (ProgramState_new [1] []) = 0 /\
  param_read {| mode := Relative; contents := -5 |} (ProgramState_new [1] []) = 0.
Proof.
  destruct (negative_address_wraps [(0, 1)] (ProgramState_new [1] []) (-5) 0 eq_refl)
    as [_ Hrel].
  destruct (negative_address_wraps [(0, 1)] (ProgramState_new [1] []) (-1) 0 eq_refl)
    as [Hpos _].
  split.
  - apply Hpos; [reflexivity|]. vm_compute. intros Hin.
    apply elem_of_cons in Hin as [Hin|Hin]; [discriminate|]. by apply not_elem_of_nil in Hin.
  - apply Hrel; [reflexivity|]. vm_compute. intros Hin.
    apply elem_of_cons in Hin as [Hin|Hin]; [discriminate|]. by apply not_elem_of_nil in Hin.
Defined.

(** * Further properties of the code *)

(** ** Memory: [PagedMemory::from], [PartialEq<Vec<T>>], [write_addr] *)

Section MemoryMore.

Lemma read_mem_from_aux (src : list Z) (base a : Z) (m : PagedMemory) :
  mem_wf m ->
  read_addr (mem_from_aux base src m) a =
    if (base <=? a) && (a <? base + Z.of_nat (length src))
    then nth (Z.to_nat (a - base)) src 0 else read_addr m a.
Proof.
  revert base m. induction src as [|v src IH]; intros base m Hwf; simpl.
  - replace (base + Z.of_nat 0) with base by lia.
    destruct (Z.leb_spec base a), (Z.ltb_spec a base); simpl; try done; lia.
  - rewrite IH by (by apply mem_wf_write).
    destruct (Z.eq_dec a base) as [->|Hne].
    + rewrite read_write_eq by done.
      replace ((base + 1 <=? base)) with false by (symmetry; apply Z.leb_gt; lia).
      replace (base <=? base) with true by (symmetry; apply Z.leb_le; lia).
      replace (base <? base + Z.of_nat (S (length src))) with true
        by (symmetry; apply Z.ltb_lt; lia).
      by rewrite Z.sub_diag.
    + rewrite read_write_ne by congruence.
      destruct (Z.leb_spec (base + 1) a), (Z.ltb_spec a (base + 1 + Z.of_nat (length src))),
        (Z.leb_spec base a), (Z.ltb_spec a (base + Z.of_nat (S (length src))));
        simpl; try lia; try done.
      replace (Z.to_nat (a - base)) with (S (Z.to_nat (a - (base + 1)))) by lia.
      reflexivity.
Qed.

Lemma mem_eq_aux_spec (m : PagedMemory) (base : Z) (other : list Z) :
  mem_eq_aux m base other = true <->
  forall i : nat, (i < length other)%nat -> read_addr m (base + Z.of_nat i) = nth i other 0.
Proof.
  revert base. induction other as [|v other IH]; intros base; simpl.
  - split; [intros _ i Hi; lia|done].
  - destruct (Z.eqb_spec (read_addr m base) v) as [Heq|Hne]; simpl.
    + rewrite IH. split.
      * intros H [|i] Hi; simpl; [by rewrite Z.add_0_r|].
        rewrite <- (H i) by lia. f_equal. lia.
      * intros H i Hi. rewrite <- (H (S i)) by lia. f_equal. lia.
    + split; [done|]. intros H. exfalso. apply Hne.
      rewrite <- (H 0%nat) by lia. by rewrite Z.add_0_r.
Qed.

Lemma write_addr_same_page_offsets (a b : Z) :
  a <> b -> a / PAGE_SIZE = b / PAGE_SIZE ->
  Z.to_nat (a mod PAGE_SIZE) <> Z.to_nat (b mod PAGE_SIZE).
Proof. intros Hne Hi Ho. apply Hne. by apply same_cell. Qed.

End MemoryMore.

(** ** Run loops and steps *)

Section RunsMore.

Lemma run_to_next_input_finished (n : nat) (s s' : ProgramState) :
  run_to_next_input n s = Finished s' ->
  terminated s' = true \/
  (terminated s' = false /\ inputs s' = [] /\
   exists ins, fetch_and_decode s' = ROk ins s' /\ opcode ins = ReadInput).
Proof.
  revert s. induction n as [|n IH]; intros s H; simpl in H.
  - destruct (terminated s) eqn:Ht; [|discriminate]. injection H as <-. by left.
  - destruct (terminated s) eqn:Ht; [injection H as <-; by left|].
    destruct (progress_state s) as [u s1|e s1|why] eqn:Hp; [by apply (IH s1)| |discriminate].
    destruct e. injection H as <-.
    apply progress_state_err in Hp as (Hf & Hin & ->). right. auto.
Qed.

Definition queue_ok (s s' : ProgramState) : Prop :=
  (exists consumed, inputs s = consumed ++ inputs s') /\
  (exists produced, outputs s' = outputs s ++ produced).

#[local] Instance queue_ok_refl : Reflexive queue_ok.
Proof. intros s. split; exists []; [done|by rewrite app_nil_r]. Qed.
#[local] Instance queue_ok_trans : Transitive queue_ok.
Proof.
  intros s1 s2 s3 [[c1 H1] [p1 G1]] [[c2 H2] [p2 G2]]. split.
  - exists (c1 ++ c2). by rewrite H1, H2, app_assoc.
  - exists (p1 ++ p2). by rewrite G2, G1, app_assoc.
Qed.

Lemma queue_ok_same (s s' : ProgramState) :
  inputs s' = inputs s -> outputs s' = outputs s -> queue_ok s s'.
Proof. intros Hi Ho. split; exists []; [by rewrite Hi|by rewrite Ho, app_nil_r]. Qed.

Lemma stable_queue_pop_input : stable queue_ok pop_input.
Proof.
  intros s. unfold pop_input.
  destruct (inputs s) as [|x q] eqn:Hin; simpl.
  - apply queue_ok_same; simpl; [by rewrite Hin|done].
  - split; [exists [x]; simpl; by rewrite Hin|exists []; simpl; by rewrite app_nil_r].
Qed.

Lemma stable_queue_execute (ins : Instruction) : stable queue_ok (execute ins).
Proof.
  unfold execute.
  apply stable_bind; [apply _..| |intros jumped].
  - unfold execute_op.
    destruct (opcode ins);
      repeat first
        [ apply stable_bind; [apply _..| |intros ?]
        | apply stable_ret; apply _
        | apply stable_queue_pop_input
        | apply (stable_read_param queue_ok)
        | apply (stable_write_param queue_ok); intros; by apply queue_ok_same
        | apply stable_modify; intros ?;
            first [ split; [exists []; reflexivity|eexists; reflexivity]
                  | by apply queue_ok_same ]
        | case_match ].
  - apply stable_bind; [apply _..| |intros; apply stable_ret; apply _].
    destruct jumped; [apply stable_ret; apply _|].
    apply stable_modify. intros; by apply queue_ok_same.
Qed.

Lemma progress_state_queue_ok (s s' : ProgramState) (u : unit) :
  progress_state s = ROk u s' -> queue_ok s s'.
Proof.
  unfold progress_state, bind.
  destruct (fetch_and_decode_pure s) as [[ins Hf]|[why Hf]]; rewrite Hf; [|discriminate].
  intros H. pose proof (stable_queue_execute ins s) as Hst. by rewrite H in Hst.
Qed.

Lemma run_loops_queue_ok (n : nat) (s s' : ProgramState) :
  (run_to_next_input n s = Finished s' -> queue_ok s s') /\
  (run_to_completion n s = Finished s' -> queue_ok s s').
Proof.
  revert s. induction n as [|n IH]; intros s; simpl.
  - destruct (terminated s); split; intros H; try discriminate; injection H as <-; reflexivity.
  - destruct (terminated s); [split; intros H; injection H as <-; reflexivity|].
    destruct (progress_state s) as [u s1|e s1|why] eqn:Hp; split; intros H; try discriminate.
    all: first
      [ etransitivity; [by eapply progress_state_queue_ok|];
        first [by apply (proj1 (IH s1)) | by apply (proj2 (IH s1))]
      | destruct e; injection H as <-;
        apply progress_state_err in Hp as (_ & _ & ->); reflexivity ].
Qed.

Lemma ParameterMode_from_cases (code : Z) :
  (exists md, ParameterMode_from code = ret md) \/
  (exists why, ParameterMode_from code = panic why).
Proof. unfold ParameterMode_from. repeat case_match; eauto. Qed.

Lemma OpCode_from_element_cases (w : Z) :
  (exists op, OpCode_from_element w = ret op) \/
  (exists why, OpCode_from_element w = panic why).
Proof. unfold OpCode_from_element. repeat case_match; eauto. Qed.

Lemma decode_params_frame (n : nat) (i modes : Z) (s t : ProgramState) :
  program_counter t = program_counter s ->
  (forall j, i <= j < i + Z.of_nat n ->
     read_addr (mem t) (usize_add (program_counter s) j) =
     read_addr (mem s) (usize_add (program_counter s) j)) ->
  decode_params n i modes t = res_map (fun _ => t) (decode_params n i modes s).
Proof.
  revert i modes. induction n as [|n IH]; intros i modes Hpc Hcells; [reflexivity|].
  cbn [decode_params].
  destruct (ParameterMode_from_cases (as_u8 (Z.rem modes 10))) as [[md Hm]|[why Hm]];
    rewrite Hm; [|reflexivity].
  unfold bind, ret, gets.
  rewrite Hpc, Hcells by lia.
  rewrite (IH (i + 1) (Z.quot modes 10)); [|done|intros j Hj; apply Hcells; lia].
  pose proof (stable_eq_decode_params n (i + 1) (Z.quot modes 10) s) as Hst.
  pose proof (no_err_decode_params n (i + 1) (Z.quot modes 10) s) as Hne.
  destruct (decode_params n (i + 1) (Z.quot modes 10) s) as [ps s1|e s1|w];
    simpl; [subst; reflexivity|by edestruct Hne|reflexivity].
Qed.

Lemma fetch_and_decode_frame (s t : ProgramState) :
  program_counter t = program_counter s -> 0 <= program_counter s < 2 ^ 64 ->
  (forall j, 0 <= j < 4 ->
     read_addr (mem t) (usize_add (program_counter s) j) =
     read_addr (mem s) (usize_add (program_counter s) j)) ->
  fetch_and_decode t = res_map (fun _ => t) (fetch_and_decode s).
Proof.
  intros Hpc Hrange Hcells.
  assert (H0 : read_addr (mem t) (program_counter t) = read_addr (mem s) (program_counter s)).
  { rewrite Hpc. specialize (Hcells 0 ltac:(lia)).
    unfold usize_add, usize_wrap in Hcells. rewrite Z.add_0_r, Z.mod_small in Hcells by lia.
    exact Hcells. }
  unfold fetch_and_decode. cbv [bind gets]. rewrite H0.
  destruct (OpCode_from_element_cases (read_addr (mem s) (program_counter s)))
    as [[op Hop]|[why Hop]]; rewrite Hop; cbv [ret panic]; [|reflexivity].
  assert (Hlen : 1 <= opcode_length op <= 4) by (destruct op; simpl; lia).
  rewrite (decode_params_frame _ _ _ s t); [|done|intros j Hj; apply Hcells; lia].
  pose proof (stable_eq_decode_params (Z.to_nat (opcode_length op - 1)) 1
                (Z.quot (read_addr (mem s) (program_counter s)) 100) s) as Hst.
  pose proof (no_err_decode_params (Z.to_nat (opcode_length op - 1)) 1
                (Z.quot (read_addr (mem s) (program_counter s)) 100) s) as Hne.
  destruct (decode_params _ _ _ s) as [ps s1|e s1|w];
    simpl; [subst; reflexivity|by edestruct Hne|reflexivity].
Qed.

Lemma execute_mem_frame (ins : Instruction) (s s' : ProgramState) :
  execute ins s = ROk tt s' ->
  (exists a, forall b, b <> a -> read_addr (mem s') b = read_addr (mem s) b) /\
  match opcode ins with
  | Add | Multiply | ReadInput | LessThan | Equals => True
  | _ => mem s' = mem s
  end.
Proof.
  intros H. unfold execute, execute_op in H.
  destruct (opcode ins);
    unfold bind, read_param, write_param, param_write, pop_input, modify, gets, ret, panic in H;
    repeat (case_match; simplify_eq/=); simplify_eq/=.
  all: first
      [ split; [|done];
        match goal with
        | |- context [write_addr _ ?A _] =>
            exists A; intros b Hb; apply read_write_ne; congruence
        end
      | split; [exists 0; done|done] ].
Qed.

End RunsMore.

(** ** The loader *)

Section LoaderFacts.

Ltac zcases :=
  repeat match goal with
  | |- context [?a <=? ?b] => destruct (Z.leb_spec a b)
  | |- context [?a <? ?b] => destruct (Z.ltb_spec a b)
  | |- context [?a =? ?b] => destruct (Z.eqb_spec a b)
  | H : context [?a <=? ?b] |- _ => destruct (Z.leb_spec a b)
  | H : context [?a <? ?b] |- _ => destruct (Z.ltb_spec a b)
  | H : context [?a =? ?b] |- _ => destruct (Z.eqb_spec a b)
  end.

Lemma read_until_no_delim (d : Z) (p : list Z) :
  Forall (fun b => b <> d) p -> read_until d p = (p, []).
Proof.
  induction 1 as [|b p Hb _ IH]; [done|].
  simpl. destruct (Z.eqb_spec b d); [done|]. by rewrite IH.
Qed.

Lemma read_until_delim (d : Z) (p rest : list Z) :
  Forall (fun b => b <> d) p -> read_until d (p ++ d :: rest) = (p ++ [d], rest).
Proof.
  induction 1 as [|b p Hb _ IH]; simpl.
  - by rewrite Z.eqb_refl.
  - destruct (Z.eqb_spec b d); [done|]. by rewrite IH.
Qed.

Lemma read_until_length (d : Z) (bytes buf rest : list Z) :
  read_until d bytes = (buf, rest) -> (length buf + length rest = length bytes)%nat.
Proof.
  revert buf rest. induction bytes as [|b bytes IH]; intros buf rest H; simpl in H.
  - by simplify_eq.
  - destruct (b =? d); [by simplify_eq|].
    destruct (read_until d bytes) as [buf' rest'] eqn:E. simplify_eq/=.
    by rewrite (IH _ _ eq_refl).
Qed.

Lemma split_next_shorter (d : Z) (bytes piece rest : list Z) :
  split_next d bytes = Some (piece, rest) -> (length rest < length bytes)%nat.
Proof.
  unfold split_next. destruct (read_until d bytes) as [buf r] eqn:E.
  apply read_until_length in E. destruct buf as [|b buf]; [done|].
  intros H; simplify_eq/=. lia.
Qed.

Lemma split_rounds_fuel (d : Z) (f1 f2 : nat) (bytes : list Z) :
  (length bytes < f1)%nat -> (length bytes < f2)%nat ->
  split_rounds f1 d bytes = split_rounds f2 d bytes.
Proof.
  revert f2 bytes. induction f1 as [|f1 IH]; intros f2 bytes H1 H2; [lia|].
  destruct f2 as [|f2]; [lia|]. simpl.
  destruct (split_next d bytes) as [[piece rest]|] eqn:E; [|done].
  apply split_next_shorter in E. f_equal. apply IH; lia.
Qed.

Lemma split_rounds_enough (d : Z) (f : nat) (bytes : list Z) :
  (length bytes < f)%nat -> split_rounds f d bytes = BufRead_split d bytes.
Proof. intros H. apply split_rounds_fuel; simpl; lia. Qed.

Lemma BufRead_split_nil (d : Z) : BufRead_split d [] = [].
Proof. reflexivity. Qed.

Lemma split_next_delim (d : Z) (p rest : list Z) :
  Forall (fun b => b <> d) p -> split_next d (p ++ d :: rest) = Some (p, rest).
Proof.
  intros Hp. unfold split_next. rewrite read_until_delim by done.
  destruct (p ++ [d]) as [|b buf] eqn:E; [by destruct p|].
  rewrite <- E, last_snoc, bool_decide_true by done.
  by rewrite removelast_last.
Qed.

Lemma split_next_last (d : Z) (p : list Z) :
  Forall (fun b => b <> d) p -> p <> [] -> split_next d p = Some (p, []).
Proof.
  intros Hp Hne. unfold split_next. rewrite read_until_no_delim by done.
  destruct p as [|b p']; [done|]. rewrite bool_decide_false; [done|].
  intros Hl. apply last_Some_elem_of in Hl. rewrite Forall_forall in Hp.
  by apply (Hp d).
Qed.

Lemma BufRead_split_delim (d : Z) (p rest : list Z) :
  Forall (fun b => b <> d) p ->
  BufRead_split d (p ++ d :: rest) = p :: BufRead_split d rest.
Proof.
  intros Hp. unfold BufRead_split at 1. simpl.
  rewrite split_next_delim by done. f_equal.
  apply split_rounds_enough. rewrite length_app. simpl. lia.
Qed.

Lemma BufRead_split_last (d : Z) (p : list Z) :
  Forall (fun b => b <> d) p -> p <> [] -> BufRead_split d p = [p].
Proof.
  intros Hp Hne. unfold BufRead_split. simpl.
  rewrite split_next_last by done. f_equal.
  by destruct (length p).
Qed.

(** Splitting the comma-joined pieces gives the pieces back when none holds
    a comma and the last one is not empty. *)
Lemma BufRead_split_join (ps : list (list Z)) :
  Forall (Forall (fun b => b <> 44)) ps -> last ps <> Some [] ->
  BufRead_split 44 (join_comma ps) = ps.
Proof.
  induction ps as [|p ps IH]; intros Hps Hl; [done|].
  apply Forall_cons in Hps as [Hp Hps].
  destruct ps as [|q ps].
  - simpl in *. apply BufRead_split_last; [done|]. intros ->. done.
  - change (join_comma (p :: q :: ps)) with (p ++ 44 :: join_comma (q :: ps)).
    rewrite BufRead_split_delim by done. f_equal. apply IH; [done|].
    by rewrite last_cons_cons in Hl.
Qed.

(** With an empty last piece, i.e. a trailing comma, splitting gives
    back the pieces before it. *)
Lemma BufRead_split_join_trailing (ps : list (list Z)) :
  Forall (Forall (fun b => b <> 44)) ps ->
  BufRead_split 44 (join_comma (ps ++ [[]])) = ps.
Proof.
  induction ps as [|p ps IH]; intros Hps; [apply BufRead_split_nil|].
  apply Forall_cons in Hps as [Hp Hps].
  assert (Hj : join_comma ((p :: ps) ++ [[]]) = p ++ 44 :: join_comma (ps ++ [[]]))
    by (destruct ps; reflexivity).
  rewrite Hj, BufRead_split_delim by done. f_equal. by apply IH.
Qed.

Lemma BufRead_split_nonempty_or_delim (bytes : list Z) :
  Forall (fun b => b <> 44) bytes \/
  exists p rest, bytes = p ++ 44 :: rest /\ Forall (fun b => b <> 44) p.
Proof.
  induction bytes as [|b bytes IH]; [by left|].
  destruct (Z.eqb_spec b 44) as [->|Hb].
  - right. by exists [], bytes.
  - destruct IH as [IH|(p & rest & -> & Hp)].
    + left. by constructor.
    + right. exists (b :: p), rest. split; [done|]. by constructor.
Qed.

(** A comma appended to a non-empty input that does not already end in one
    adds no piece. *)
Lemma BufRead_split_trailing (bytes : list Z) :
  bytes <> [] -> last bytes <> Some 44 ->
  BufRead_split 44 (bytes ++ [44]) = BufRead_split 44 bytes.
Proof.
  induction bytes as [bytes IH] using (induction_ltof1 _ (@length Z)); unfold ltof in IH.
  intros Hne Hl.
  destruct (BufRead_split_nonempty_or_delim bytes) as [Hb|(p & rest & -> & Hp)].
  - rewrite BufRead_split_delim by done. rewrite (BufRead_split_last 44 bytes) by done.
    by rewrite BufRead_split_nil.
  - rewrite <- app_assoc. simpl.
    rewrite (BufRead_split_delim 44 p (rest ++ [44])), (BufRead_split_delim 44 p rest) by done. f_equal.
    destruct rest as [|r rest].
    + by rewrite last_app_cons in Hl.
    + apply IH.
      * rewrite length_app. simpl. lia.
      * done.
      * intros H. apply Hl. by rewrite last_app_cons, last_cons_cons.
Qed.

Lemma from_utf8_ascii (bytes : list Z) :
  Forall (fun c => 0 <= c <= 127) bytes -> from_utf8 bytes = Some bytes.
Proof.
  induction 1 as [|c bytes Hc _ IH]; [done|].
  simpl. destruct (Z.leb_spec c 127); [|lia]. by rewrite IH.
Qed.

Lemma is_whitespace_ascii (c : Z) :
  0 <= c <= 127 -> is_whitespace c = (c =? 32) || in_range 9 13 c.
Proof.
  intros Hc. unfold is_whitespace. destruct (Z.ltb_spec 127 c); [lia|].
  by rewrite andb_false_l, orb_false_r.
Qed.

Lemma trim_start_ws (l r : list Z) :
  Forall (fun c => is_whitespace c = true) l -> trim_start (l ++ r) = trim_start r.
Proof. induction 1 as [|c l Hc _ IH]; [done|]. simpl. by rewrite Hc. Qed.

Lemma trim_start_text (r : list Z) :
  Forall (fun c => is_whitespace c = false) r -> trim_start r = r.
Proof. destruct 1 as [|c r Hc _]; [done|]. simpl. by rewrite Hc. Qed.

(** [trim] keeps exactly the text between whitespace padding. *)
Lemma trim_padded (l r t : list Z) :
  Forall (fun c => is_whitespace c = true) l ->
  Forall (fun c => is_whitespace c = false) r ->
  Forall (fun c => is_whitespace c = true) t ->
  trim (l ++ r ++ t) = r.
Proof.
  intros Hl Hr Ht. unfold trim.
  rewrite trim_start_ws by done.
  destruct r as [|c r'].
  - simpl. rewrite <- (app_nil_r t), trim_start_ws by done. done.
  - assert (Hc : is_whitespace c = false) by (by inversion Hr).
    cbn [app trim_start]. rewrite Hc.
    change (c :: r' ++ t) with ((c :: r') ++ t). rewrite rev_app_distr.
    rewrite trim_start_ws by (by apply Forall_rev).
    rewrite trim_start_text by (by apply Forall_rev).
    by rewrite rev_involutive.
Qed.

Lemma trim_blank (p : list Z) :
  Forall (fun c => is_whitespace c = true) p -> trim p = [].
Proof.
  intros Hp. unfold trim. rewrite <- (app_nil_r p), trim_start_ws by done. done.
Qed.

Lemma is_digit_forallb (ds : list Z) :
  forallb is_digit ds = true <-> Forall (fun c => 48 <= c <= 57) ds.
Proof.
  induction ds as [|c ds IH]; simpl; [split; by constructor|].
  rewrite andb_true_iff, IH, Forall_cons. unfold is_digit, in_range.
  rewrite andb_true_iff, !Z.leb_le. done.
Qed.

Lemma digit_fold_mono (ds : list Z) (acc : Z) :
  forallb is_digit ds = true -> 0 <= acc -> acc <= fold_left dec_step ds acc.
Proof.
  revert acc. induction ds as [|c ds IH]; intros acc Hd Ha; simpl in *; [lia|].
  apply andb_true_iff in Hd as [Hc Hd]. unfold is_digit, in_range in Hc.
  apply andb_true_iff in Hc as [H1 H2]. apply Z.leb_le in H1, H2.
  etransitivity; [|apply IH]; unfold dec_step; [lia|done|lia].
Qed.

(** The positive digit loop: the value of the digits if they are all digits
    and it fits in [isize]. *)
Lemma parse_digits_pos (ds : list Z) (acc : Z) :
  0 <= acc <= ISIZE_MAX ->
  parse_digits true acc ds =
    if forallb is_digit ds && (fold_left dec_step ds acc <=? ISIZE_MAX)
    then Some (fold_left dec_step ds acc) else None.
Proof.
  revert acc. induction ds as [|c ds IH]; intros acc Ha; simpl.
  - destruct (Z.leb_spec acc ISIZE_MAX); [done|lia].
  - unfold to_digit. fold (is_digit c).
    destruct (is_digit c) eqn:Hc; [|done]. simpl.
    unfold is_digit, in_range in Hc. apply andb_true_iff in Hc as [H1 H2].
    apply Z.leb_le in H1, H2.
    destruct (forallb is_digit ds) eqn:Hd.
    2:{ unfold in_isize. simpl. zcases; try done. rewrite IH; [done|].
        unfold ISIZE_MAX, ISIZE_MIN in *. lia. }
    pose proof (digit_fold_mono ds (acc * 10 + (c - 48)) Hd ltac:(lia)) as Hm.
    fold (dec_step acc c) in *. unfold dec_step at 1 2 in Hm.
    unfold in_isize, dec_step in *. simpl.
    unfold ISIZE_MAX, ISIZE_MIN in *. zcases; simpl; try lia; try done.
    all: rewrite IH by lia; simpl; zcases; done || lia.
Qed.

(** The negative digit loop, by [checked_sub]. *)
Lemma parse_digits_neg (ds : list Z) (acc : Z) :
  0 <= acc <= ISIZE_MAX + 1 ->
  parse_digits false (- acc) ds =
    if forallb is_digit ds && (ISIZE_MIN <=? - fold_left dec_step ds acc)
    then Some (- fold_left dec_step ds acc) else None.
Proof.
  revert acc. induction ds as [|c ds IH]; intros acc Ha; simpl.
  - unfold ISIZE_MIN, ISIZE_MAX in *. destruct (Z.leb_spec (- 2 ^ 63) (- acc)); [done|lia].
  - unfold to_digit. fold (is_digit c).
    destruct (is_digit c) eqn:Hc; [|done]. simpl.
    unfold is_digit, in_range in Hc. apply andb_true_iff in Hc as [H1 H2].
    apply Z.leb_le in H1, H2.
    replace (- acc * 10 - (c - 48)) with (- (acc * 10 + (c - 48))) by lia.
    destruct (forallb is_digit ds) eqn:Hd.
    2:{ unfold in_isize. simpl. zcases; try done. rewrite IH; [done|].
        unfold ISIZE_MAX, ISIZE_MIN in *. lia. }
    pose proof (digit_fold_mono ds (acc * 10 + (c - 48)) Hd ltac:(lia)) as Hm.
    unfold in_isize, dec_step in *. simpl.
    unfold ISIZE_MAX, ISIZE_MIN in *. zcases; simpl; try lia; try done.
    all: rewrite IH by lia; simpl; zcases; done || lia.
Qed.

Lemma decimal_value_snoc (ds : list Z) (c : Z) :
  decimal_value (ds ++ [c]) = decimal_value ds * 10 + (c - 48).
Proof. unfold decimal_value. by rewrite fold_left_app. Qed.

Lemma decimal_digits_S (f : nat) (n : Z) :
  decimal_digits (S f) n =
    if n <? 10 then [48 + n] else decimal_digits f (n / 10) ++ [48 + n mod 10].
Proof. reflexivity. Qed.

(** [decimal_digits] writes the digits of a value below [10 ^ fuel]. *)
Lemma decimal_digits_spec (f : nat) (m : Z) :
  0 <= m < 10 ^ Z.of_nat (S f) ->
  decimal_digits (S f) m <> [] /\
  Forall (fun c => 48 <= c <= 57) (decimal_digits (S f) m) /\
  decimal_value (decimal_digits (S f) m) = m.
Proof.
  revert m. induction f as [|f IH]; intros m Hm.
  - simpl in *. destruct (Z.ltb_spec m 10); [|lia].
    split; [done|]. split; [repeat constructor; lia|]. unfold decimal_value, dec_step; simpl; lia.
  - rewrite decimal_digits_S. destruct (Z.ltb_spec m 10).
    + split; [done|]. split; [repeat constructor; lia|]. unfold decimal_value, dec_step; simpl; lia.
    + destruct (IH (m / 10)) as (_ & Hf & Hv).
      { split; [apply Z.div_pos; lia|].
        apply Z.div_lt_upper_bound; [lia|].
        rewrite Nat2Z.inj_succ, Z.pow_succ_r in Hm by lia. lia. }
      split; [intros Hnil; apply app_eq_nil in Hnil as [_ Hn]; discriminate|].
      split.
      * apply Forall_app. split; [done|].
        pose proof (Z.mod_pos_bound m 10 ltac:(lia)). repeat constructor; lia.
      * rewrite decimal_value_snoc, Hv.
        pose proof (Z.div_mod m 10 ltac:(lia)). lia.
Qed.

Lemma render_isize_spec (x : Z) :
  ISIZE_MIN <= x <= ISIZE_MAX ->
  exists ds, ds <> [] /\ Forall (fun c => 48 <= c <= 57) ds /\
    decimal_value ds = Z.abs x /\
    render_isize x = (if x <? 0 then [45] else []) ++ ds.
Proof.
  intros Hx. exists (decimal_digits 20 (Z.abs x)).
  destruct (decimal_digits_spec 19 (Z.abs x)) as (H1 & H2 & H3).
  { unfold ISIZE_MIN, ISIZE_MAX in *. simpl. lia. }
  done.
Qed.

Lemma parse_isize_render (x : Z) :
  ISIZE_MIN <= x <= ISIZE_MAX -> parse_isize (render_isize x) = Some x.
Proof.
  intros Hx. destruct (render_isize_spec x Hx) as (ds & Hne & Hd & Hv & ->).
  apply is_digit_forallb in Hd.
  destruct (Z.ltb_spec x 0) as [Hneg|Hpos].
  - simpl. destruct ds as [|c ds']; [done|].
    rewrite <- (Z.opp_0), parse_digits_neg by (unfold ISIZE_MAX; lia).
    fold (decimal_value (c :: ds')). rewrite Hd, Hv. simpl.
    unfold ISIZE_MIN, ISIZE_MAX in *. zcases; [f_equal; lia|lia].
  - destruct ds as [|c ds']; [done|]. simpl.
    pose proof Hd as Hc. simpl in Hc. apply andb_true_iff in Hc as [Hc _].
    unfold is_digit, in_range in Hc. apply andb_true_iff in Hc as [Hc1 Hc2].
    apply Z.leb_le in Hc1, Hc2.
    destruct (Z.eqb_spec c 43); [lia|]. destruct (Z.eqb_spec c 45); [lia|].
    rewrite parse_digits_pos by (unfold ISIZE_MAX; lia).
    fold (decimal_value (c :: ds')). rewrite Hd, Hv. simpl.
    zcases; [f_equal; lia|lia].
Qed.

Lemma render_isize_ascii (x : Z) :
  ISIZE_MIN <= x <= ISIZE_MAX ->
  Forall (fun c => 0 <= c <= 127 /\ is_whitespace c = false /\ c <> 44) (render_isize x).
Proof.
  intros Hx. destruct (render_isize_spec x Hx) as (ds & _ & Hd & _ & ->).
  apply Forall_app. split.
  - destruct (x <? 0); repeat constructor; done.
  - eapply Forall_impl; [exact Hd|]. intros c Hc. cbv beta in Hc.
    rewrite is_whitespace_ascii by lia. unfold in_range.
    zcases; simpl; repeat split; (lia || done).
Qed.

Lemma ascii_space_facts (c : Z) :
  c = 32 \/ 9 <= c <= 13 -> 0 <= c <= 127 /\ is_whitespace c = true /\ c <> 44.
Proof.
  intros Hc. rewrite is_whitespace_ascii by lia. unfold in_range.
  zcases; simpl; repeat split; (lia || done).
Qed.

Lemma padded_element (x : Z) (l t : list Z) :
  ISIZE_MIN <= x <= ISIZE_MAX ->
  Forall (fun c => c = 32 \/ 9 <= c <= 13) l ->
  Forall (fun c => c = 32 \/ 9 <= c <= 13) t ->
  parse_element (l ++ render_isize x ++ t) = Some x /\
  Forall (fun b => b <> 44) (l ++ render_isize x ++ t) /\
  l ++ render_isize x ++ t <> [].
Proof.
  intros Hx Hl Ht.
  pose proof (render_isize_ascii x Hx) as Hr.
  assert (Hl' := Forall_impl _ _ _ Hl ascii_space_facts).
  assert (Ht' := Forall_impl _ _ _ Ht ascii_space_facts).
  split; [|split].
  - unfold parse_element. rewrite from_utf8_ascii.
    + rewrite trim_padded.
      * by apply parse_isize_render.
      * eapply Forall_impl; [exact Hl'|]. naive_solver.
      * eapply Forall_impl; [exact Hr|]. naive_solver.
      * eapply Forall_impl; [exact Ht'|]. naive_solver.
    + apply Forall_app_2; [|apply Forall_app_2];
      [eapply Forall_impl; [exact Hl'|] | eapply Forall_impl; [exact Hr|]
      | eapply Forall_impl; [exact Ht'|]]; naive_solver.
  - apply Forall_app_2; [|apply Forall_app_2];
      [eapply Forall_impl; [exact Hl'|] | eapply Forall_impl; [exact Hr|]
      | eapply Forall_impl; [exact Ht'|]]; naive_solver.
  - destruct (render_isize_spec x Hx) as (ds & Hne & _ & _ & Hrd).
    intros Hnil. apply app_eq_nil in Hnil as [_ Hnil].
    apply app_eq_nil in Hnil as [Hnil _]. rewrite Hrd in Hnil.
    apply app_eq_nil in Hnil as [_ Hnil]. done.
Qed.

Lemma padded_pieces (xs : list Z) (pads : list (list Z * list Z)) :
  Forall (fun x => ISIZE_MIN <= x <= ISIZE_MAX) xs ->
  length pads = length xs ->
  Forall (fun pad => Forall (fun c => c = 32 \/ 9 <= c <= 13) pad.1 /\
                     Forall (fun c => c = 32 \/ 9 <= c <= 13) pad.2) pads ->
  Forall2 (fun p x => parse_element p = Some x)
    (zip_with (fun x pad => pad.1 ++ render_isize x ++ pad.2) xs pads) xs /\
  Forall (Forall (fun b => b <> 44))
    (zip_with (fun x pad => pad.1 ++ render_isize x ++ pad.2) xs pads) /\
  Forall (fun p => p <> [])
    (zip_with (fun x pad => pad.1 ++ render_isize x ++ pad.2) xs pads).
Proof.
  revert pads. induction xs as [|x xs IH]; intros pads Hxs Hlen Hpads.
  - destruct pads; [|done]. simpl. by repeat constructor.
  - destruct pads as [|[l t] pads]; [done|]. simpl in *.
    apply Forall_cons in Hxs as [Hx Hxs]. apply Forall_cons in Hpads as [[Hl Ht] Hpads].
    destruct (padded_element x l t Hx Hl Ht) as (H1 & H2 & H3).
    destruct (IH pads Hxs ltac:(lia) Hpads) as (H1' & H2' & H3').
    split; [by constructor|]. split; by constructor.
Qed.

End LoaderFacts.

(** ** The callers *)

Section CallerFacts.

Lemma i32_wrap_small (z : Z) : - 2 ^ 31 <= z < 2 ^ 31 -> i32_wrap z = z.
Proof. intros Hz. unfold i32_wrap. rewrite Z.mod_small by lia. lia. Qed.

Lemma i32_wrap_range (z : Z) : - 2 ^ 31 <= i32_wrap z < 2 ^ 31.
Proof. unfold i32_wrap. pose proof (Z.mod_pos_bound (z + 2 ^ 31) (2 ^ 32)). lia. Qed.

Lemma i32_wrap_add_l (a b : Z) : i32_wrap (i32_wrap a + b) = i32_wrap (a + b).
Proof.
  unfold i32_wrap. f_equal.
  replace ((a + 2 ^ 31) mod 2 ^ 32 - 2 ^ 31 + b + 2 ^ 31)
    with ((a + 2 ^ 31) mod 2 ^ 32 + b) by lia.
  rewrite Zplus_mod_idemp_l. f_equal. lia.
Qed.

(** **** [util] *)

Definition vec2_in_range (v : Util.Vec2) : Prop :=
  - 2 ^ 31 <= Util.x v < 2 ^ 31 /\ - 2 ^ 31 <= Util.y v < 2 ^ 31.

Lemma Vec2_add_range (a b : Util.Vec2) : vec2_in_range (Util.Vec2_add a b).
Proof. split; apply i32_wrap_range. Qed.

(** A step in a direction and a step in the opposite direction cancel. *)
Lemma Vec2_add_vec_opposite (p : Util.Vec2) (d : Util.CardDir) :
  vec2_in_range p ->
  Util.Vec2_add (Util.Vec2_add p (Util.vec d)) (Util.vec (Util.opposite d)) = p.
Proof.
  intros [Hx Hy]. destruct p as [px py].
  destruct d; unfold Util.Vec2_add; cbn [Util.x Util.y Util.vec Util.opposite];
    rewrite !i32_wrap_add_l; f_equal; rewrite i32_wrap_small; simpl in *; lia.
Qed.

(** **** [day_7] *)

Lemma last_list_insert {A} (l : list A) (i : nat) (v : A) :
  (i < length l)%nat ->
  last (<[i := v]> l) = if bool_decide (i = pred (length l)) then Some v else last l.
Proof.
  intros Hi. rewrite !last_lookup, length_insert.
  case_bool_decide as E.
  - subst. by apply list_lookup_insert_eq.
  - by apply list_lookup_insert_ne.
Qed.

Definition amps_signal_ok (amps : list ProgramState) (signal : Z) : Prop :=
  forall a, last amps = Some a -> terminated a = true -> last (outputs a) = Some signal.

Lemma amp_loop_spec (fuel rounds : nat) (amps : list ProgramState) (signal : Z) (idx : nat)
    (r : Z) (amps' : list ProgramState) :
  amps_signal_ok amps signal ->
  Day7.amp_loop rounds fuel amps signal idx = Done (r, amps') ->
  length amps' = length amps /\
  exists a, last amps' = Some a /\ terminated a = true /\ last (outputs a) = Some r.
Proof.
  revert amps signal idx. induction rounds as [|rounds IH]; intros amps signal idx Hok H;
    simpl in H; destruct (last amps) as [l|] eqn:El; try discriminate;
    destruct (terminated l) eqn:Et; try discriminate.
  1, 2: simplify_eq; split; [done|]; exists l; split; [done|]; split; [done|]; by apply Hok.
  destruct (amps !! idx) as [a|] eqn:Ea; [|discriminate].
  destruct (run_to_next_input fuel (push_input signal a)) as [a'| |] eqn:Er; try discriminate.
  destruct (last (outputs a')) as [signal'|] eqn:Eo; [|discriminate].
  apply IH in H as [Hlen Hres].
  - split; [by rewrite Hlen, length_insert|done].
  - intros b Hb Htb. apply lookup_lt_Some in Ea.
    rewrite last_list_insert in Hb by done.
    case_bool_decide; simplify_eq; [done|congruence].
Qed.

(** **** [day_11] *)

Lemma board_set_get (b : Day11.Board) (c c' : Day11.Coord) (col : Day11.Color) :
  Day11.get_color_of (Day11.set_color_of b c col) c' =
    (if bool_decide (c' = c) then col else Day11.get_color_of b c') /\
  Day11.painted_ever (Day11.set_color_of b c col) = {[c]} ∪ Day11.painted_ever b.
Proof.
  split; [|by destruct col].
  unfold Day11.get_color_of, Day11.set_color_of.
  destruct col; simpl; repeat case_bool_decide; subst; set_solver.
Qed.

(** **** [day_13] *)

Definition board_walls_blocks (g : Day13.Game) : Prop :=
  map_Forall (fun _ v => v = Day13.Wall \/ v = Day13.Block) (Day13.board g).

Lemma process_msg_inv (g : Day13.Game) (msg : Day13.GameMessage) :
  board_walls_blocks g ->
  board_walls_blocks (Day13.process_msg g msg) /\
  Day13.controller (Day13.process_msg g msg) = Day13.controller g.
Proof.
  unfold board_walls_blocks. intros Hg.
  destruct msg as [p [] | s]; simpl; split; try done.
  - by apply map_Forall_delete.
  - apply map_Forall_insert_2; [by left|done].
  - apply map_Forall_insert_2; [by right|done].
Qed.

Lemma process_outputs_inv (outs : list Z) (g g' : Day13.Game) :
  outputs (Day13.controller g) = outs ->
  board_walls_blocks g ->
  Day13.process_outputs outs g = Some g' ->
  board_walls_blocks g' /\ (length (outputs (Day13.controller g')) < 3)%nat.
Proof.
  revert g. induction outs as [outs IH] using (induction_ltof1 _ (@length Z)).
  unfold ltof in IH. intros g Hout Hg H.
  destruct outs as [|n0 [|n1 [|n2 rest]]];
    try (simpl in H; simplify_eq; split; [done|]; rewrite Hout; simpl; lia).
  simpl in H. destruct (Day13.GameMessage_from n0 n1 n2) as [msg|]; [|discriminate].
  destruct (process_msg_inv
              (Day13.set_controller (set_outputs rest (Day13.controller g)) g) msg Hg)
    as [Hg1 Hc1].
  eapply (IH rest); [simpl; lia| |exact Hg1|exact H].
  by rewrite Hc1.
Qed.

(** **** [day_15] *)

Definition dfs_link (prev e : Day15.DfsStackElement) : Prop :=
  exists d, Day15.from_dir e = Some d /\
    Util.Vec2_add (Day15.position e) (Util.vec d) = Day15.position prev.

Fixpoint dfs_linked (prev : Day15.DfsStackElement) (rest : list Day15.DfsStackElement)
  : Prop :=
  match rest with
  | [] => True
  | e :: rest' => dfs_link prev e /\ dfs_linked e rest'
  end.

(** The stack of the search: the start cell at the bottom, every element
    one step from the one below it, all positions [i32] pairs. *)
Definition dfs_stack_ok (stack : list Day15.DfsStackElement) : Prop :=
  Forall (fun e => vec2_in_range (Day15.position e)) stack /\
  match stack with
  | [] => False
  | e :: rest =>
      Day15.position e = Util.Vec2_new 0 0 /\ Day15.from_dir e = None /\ dfs_linked e rest
  end.

Lemma dfs_linked_snoc (p : Day15.DfsStackElement) (l : list Day15.DfsStackElement) e :
  dfs_linked p (l ++ [e]) <-> dfs_linked p l /\ dfs_link (default p (last l)) e.
Proof.
  revert p. induction l as [|q l IH]; intros p; simpl.
  - tauto.
  - rewrite IH. destruct l as [|r l']; simpl; [tauto|].
    destruct (proj2 (last_is_Some (r :: l')) ltac:(done)) as [z Hz].
    rewrite Hz. simpl. tauto.
Qed.

Lemma dfs_linked_lookup (p : Day15.DfsStackElement) (l : list Day15.DfsStackElement) :
  dfs_linked p l <->
  forall i e1 e2, (p :: l) !! i = Some e1 -> (p :: l) !! S i = Some e2 -> dfs_link e1 e2.
Proof.
  revert p. induction l as [|q l IH]; intros p; simpl.
  - split; [|done]. intros _ i e1 e2 _ H. by destruct i.
  - rewrite IH. split.
    + intros [Hpq Hrest] [|i] e1 e2 H1 H2; simpl in *; simplify_eq; [done|].
      by apply (Hrest i).
    + intros H. split; [by apply (H 0%nat)|]. intros i e1 e2 H1 H2.
      by apply (H (S i)).
Qed.

Lemma dfs_link_same (prev e e' : Day15.DfsStackElement) :
  Day15.position e' = Day15.position e -> Day15.from_dir e' = Day15.from_dir e ->
  dfs_link prev e -> dfs_link prev e'.
Proof. intros Hp Hf (d & H1 & H2). exists d. by rewrite Hp, Hf. Qed.

(** Recording the search direction in the top element keeps the stack. *)
Lemma dfs_stack_ok_top (init : list Day15.DfsStackElement) (h h' : Day15.DfsStackElement) :
  Day15.position h' = Day15.position h -> Day15.from_dir h' = Day15.from_dir h ->
  dfs_stack_ok (init ++ [h]) -> dfs_stack_ok (init ++ [h']).
Proof.
  intros Hp Hf [Hr Hs]. split.
  - apply Forall_app in Hr as [Hr1 Hr2]. apply Forall_app. split; [done|].
    rewrite Forall_singleton in Hr2 |- *. cbv beta in *. rewrite Hp. exact Hr2.
  - destruct init as [|e0 init]; simpl in *.
    + by rewrite Hp, Hf.
    + destruct Hs as (H0 & H1 & H2). split; [done|]. split; [done|].
      apply dfs_linked_snoc in H2 as [H2 H3]. apply dfs_linked_snoc.
      split; [done|]. by eapply dfs_link_same.
Qed.

Lemma dfs_stack_ok_pop (init : list Day15.DfsStackElement) (h : Day15.DfsStackElement) :
  init <> [] -> dfs_stack_ok (init ++ [h]) -> dfs_stack_ok init.
Proof.
  intros Hne [Hr Hs]. apply Forall_app in Hr as [Hr _]. split; [done|].
  destruct init as [|e0 init]; [done|]. simpl in Hs.
  destruct Hs as (H0 & H1 & H2). apply dfs_linked_snoc in H2 as [H2 _]. done.
Qed.

Lemma dfs_stack_ok_push (stack : list Day15.DfsStackElement) (h : Day15.DfsStackElement)
    (d : Util.CardDir) (ox : bool) :
  last stack = Some h -> dfs_stack_ok stack ->
  dfs_stack_ok (stack ++ [Day15.Dfs_mk (Util.Vec2_add (Day15.position h) (Util.vec d))
                                       (Some (Util.opposite d)) None ox]).
Proof.
  intros Hl [Hr Hs]. split.
  - apply Forall_app. split; [done|]. apply Forall_singleton. apply Vec2_add_range.
  - destruct stack as [|e0 rest]; [done|]. simpl in Hs |- *.
    destruct Hs as (H0 & H1 & H2). split; [done|]. split; [done|].
    apply dfs_linked_snoc. split; [done|].
    assert (Hh : default e0 (last rest) = h).
    { destruct rest as [|r rest']; [simpl in Hl; by simplify_eq|].
      rewrite last_cons_cons in Hl. by rewrite Hl. }
    rewrite Hh. exists (Util.opposite d). split; [done|]. simpl.
    apply Vec2_add_vec_opposite.
    apply last_Some_elem_of in Hl. rewrite Forall_forall in Hr. by apply Hr.
Qed.

Lemma maze_dfs_loop_ok {C : Type} (cb : C -> list Day15.DfsStackElement -> C * bool)
    (rounds fuel : nat) (stack : list Day15.DfsStackElement) (c : ProgramState) (u : C)
    (stack' : list Day15.DfsStackElement) (c' : ProgramState) (u' : C) :
  dfs_stack_ok stack ->
  Day15.maze_dfs_loop cb rounds fuel stack c u = Done (stack', c', u') ->
  dfs_stack_ok stack'.
Proof.
  revert stack c u. induction rounds as [|rounds IH]; intros stack c u Hok H; [done|].
  simpl in H. destruct (last stack) as [head|] eqn:El; [|discriminate].
  destruct (match Day15.last_search_dir head with
            | Some dir => Util.turn dir Util.Clockwise
            | None => match Day15.from_dir head with
                      | Some dir => Util.turn dir Util.Clockwise
                      | None => Some Util.Up
                      end
            end) as [sd|]; [|discriminate].
  destruct (bool_decide _ && _ && _); [by simplify_eq|].
  destruct (Day15.explore fuel c sd) as [[res c1]| |]; try discriminate.
  apply last_Some in El as [init ->]. rewrite removelast_last in H.
  assert (Hok1 : dfs_stack_ok (init ++ [Day15.set_last_search_dir (Some sd) head]))
    by (apply (dfs_stack_ok_top init head); [reflexivity|reflexivity|done]).
  match type of H with
  | context [cb u ?S] =>
      assert (Hok2 : dfs_stack_ok S);
      [| destruct (cb u S) as [u1 []]; [by simplify_eq | by eapply IH]]
  end.
  destruct res; rewrite ?removelast_last; try done.
  all: case_bool_decide as Hfd;
    [ rewrite ?removelast_last;
      apply (dfs_stack_ok_pop init (Day15.set_last_search_dir (Some sd) head)); [|done];
      intros ->; destruct Hok1 as [_ (_ & Hn & _)]; cbn [Day15.from_dir Day15.set_last_search_dir] in Hn, Hfd; congruence
    | rewrite ?removelast_last; apply (dfs_stack_ok_push _ (Day15.set_last_search_dir (Some sd) head)); [by rewrite last_snoc|done] ].
Qed.

End CallerFacts.

(** * Properties of the code beyond the specification's claims *)

(** X1: [ProgramState::new(image, inputs)], through [PagedMemory::from],
    stores the [i]-th element of the image at address [i]; every other
    address reads 0. *)
Theorem ProgramState_new_memory_image (image ins : list Z) (a : Z) :
  0 <= a < 2 ^ 64 ->
  read_addr (mem (ProgramState_new image ins)) a = nth (Z.to_nat a) image 0.
Proof.
  intros Ha. unfold ProgramState_new, mem_from. cbn [mem].
  rewrite read_mem_from_aux by apply mem_wf_new.
  destruct (Z.leb_spec 0 a), (Z.ltb_spec a (0 + Z.of_nat (length image))); simpl; try lia.
  - by rewrite Z.sub_0_r.
  - rewrite nth_overflow by lia. reflexivity.
Qed.

Lemma ProgramState_new_memory_image_witness :
  read_addr (mem (ProgramState_new [7;8;9] [])) 2 = 9 /\
  read_addr (mem (ProgramState_new [7;8;9] [])) 300 = 0.
Proof.
  split.
  - rewrite (ProgramState_new_memory_image [7;8;9] [] 2) by lia. reflexivity.
  - rewrite (ProgramState_new_memory_image [7;8;9] [] 300) by lia. reflexivity.
Defined.

(** X2: [PagedMemory == Vec] holds exactly when every address below the
    vector's length holds the vector's element there; cells beyond it are
    not compared, so a memory loaded from a longer image equals its
    prefix. *)
Theorem paged_memory_eq_vec (m : PagedMemory) (other rest : list Z) :
  (mem_eq m other = true <->
   forall i : nat, (i < length other)%nat -> read_addr m (Z.of_nat i) = nth i other 0) /\
  mem_eq (mem_from (other ++ rest)) other = true.
Proof.
  split.
  - unfold mem_eq. rewrite mem_eq_aux_spec. by setoid_rewrite Z.add_0_l.
  - unfold mem_eq. apply mem_eq_aux_spec. intros i Hi. rewrite Z.add_0_l.
    unfold mem_from. rewrite read_mem_from_aux by apply mem_wf_new.
    rewrite length_app.
    destruct (Z.leb_spec 0 (Z.of_nat i)),
      (Z.ltb_spec (Z.of_nat i) (0 + Z.of_nat (length other + length rest))); simpl; try lia.
    rewrite Z.sub_0_r, Nat2Z.id. by apply app_nth1.
Qed.

(** X3: [write_addr] calls at different addresses commute, and a second
    write to the same address replaces the first: the page maps are
    equal, not only their reads. *)
Theorem write_addr_commute_and_overwrite (m : PagedMemory) (a b x y : Z) :
  a <> b ->
  write_addr (write_addr m a x) b y = write_addr (write_addr m b y) a x /\
  write_addr (write_addr m a x) a y = write_addr m a y.
Proof.
  intros Hne. unfold write_addr. cbv zeta. cbn [pages]. split; f_equal.
  - destruct (decide (a / PAGE_SIZE = b / PAGE_SIZE)) as [Hi|Hi].
    + pose proof (write_addr_same_page_offsets a b Hne Hi) as Ho.
      rewrite <- Hi, !lookup_insert_eq. cbn [default].
      rewrite !(insert_insert_eq (pages m) (a / PAGE_SIZE)).
      f_equal. apply list_insert_insert_ne. congruence.
    + rewrite !lookup_insert_ne by congruence. apply (insert_insert_ne (pages m)). congruence.
  - rewrite lookup_insert_eq. cbn [default id].
    by rewrite (insert_insert_eq (pages m) (a / PAGE_SIZE)), list_insert_insert_eq.
Qed.

Lemma write_addr_commute_and_overwrite_witness :
  write_addr (write_addr PagedMemory_new 0 5) 300 6 =
    write_addr (write_addr PagedMemory_new 300 6) 0 5 /\
  write_addr (write_addr PagedMemory_new 0 5) 0 6 = write_addr PagedMemory_new 0 6.
Proof. apply (write_addr_commute_and_overwrite PagedMemory_new 0 300 5 6). lia. Defined.

(** X4: [run_to_next_input] returns normally only on a terminated state or
    at a [ReadInput] instruction whose input queue is empty. *)
Theorem run_to_next_input_stops_on_halt_or_missing_input (n : nat) (s s' : ProgramState) :
  run_to_next_input n s = Finished s' ->
  terminated s' = true \/
  (inputs s' = [] /\ exists ins, fetch_and_decode s' = ROk ins s' /\ opcode ins = ReadInput).
Proof.
  intros H. apply run_to_next_input_finished in H as [H|(_ & Hin & Hins)]; [by left|by right].
Qed.

Lemma run_to_next_input_stops_witness :
  terminated (ProgramState_new [3;0;99] []) = true \/
  (inputs (ProgramState_new [3;0;99] []) = [] /\
   exists ins, fetch_and_decode (ProgramState_new [3;0;99] []) =
                 ROk ins (ProgramState_new [3;0;99] []) /\ opcode ins = ReadInput).
Proof.
  apply (run_to_next_input_stops_on_halt_or_missing_input 5 (ProgramState_new [3;0;99] [])).
  vm_compute. reflexivity.
Defined.

(** X5: calling [run_to_next_input] again, without pushing input in
    between, returns at once and changes nothing. *)
Theorem run_to_next_input_idempotent (n m : nat) (s s' : ProgramState) :
  run_to_next_input n s = Finished s' -> run_to_next_input (S m) s' = Finished s'.
Proof.
  intros H. apply run_to_next_input_finished in H as [Ht|(Ht & Hin & ins & Hf & Hop)];
    simpl; rewrite Ht; [done|].
  unfold progress_state, bind. rewrite Hf. by rewrite execute_read_input_empty.
Qed.

Lemma run_to_next_input_idempotent_witness :
  exists s', run_to_next_input 5 (ProgramState_new [1;0;0;0;3;0;99] []) = Finished s' /\
             run_to_next_input 1 s' = Finished s'.
Proof.
  eexists. split; [vm_compute; reflexivity|].
  apply (run_to_next_input_idempotent 5 0 (ProgramState_new [1;0;0;0;3;0;99] [])).
  vm_compute. reflexivity.
Defined.

(** X6: the run loops only take inputs from the front of the input queue
    and only append to the output queue: on return, the old input queue is
    some consumed prefix followed by the new one, and the new output queue
    is the old one followed by what was produced. *)
Theorem run_loops_consume_inputs_append_outputs (n : nat) (s s' : ProgramState) :
  run_to_next_input n s = Finished s' \/ run_to_completion n s = Finished s' ->
  (exists consumed, inputs s = consumed ++ inputs s') /\
  (exists produced, outputs s' = outputs s ++ produced).
Proof.
  intros [H|H]; [apply (proj1 (run_loops_queue_ok n s s'))|apply (proj2 (run_loops_queue_ok n s s'))];
    exact H.
Qed.

Lemma run_loops_consume_inputs_append_outputs_witness :
  exists s', run_to_completion 10 (ProgramState_new [3;9;4;9;4;9;99] [5;6]) = Finished s' /\
    (exists consumed, [5;6] = consumed ++ inputs s') /\
    (exists produced, outputs s' = [] ++ produced).
Proof.
  eexists. split; [vm_compute; reflexivity|].
  apply (run_loops_consume_inputs_append_outputs 10 (ProgramState_new [3;9;4;9;4;9;99] [5;6])).
  right. vm_compute. reflexivity.
Defined.

(** X7: one [Instruction::execute] changes at most one memory cell, and
    only [Add], [Multiply], [ReadInput], [LessThan] and [Equals] change
    memory at all. *)
Theorem execute_changes_at_most_one_cell (ins : Instruction) (s s' : ProgramState) :
  execute ins s = ROk tt s' ->
  (exists a, forall b, b <> a -> read_addr (mem s') b = read_addr (mem s) b) /\
  match opcode ins with
  | Add | Multiply | ReadInput | LessThan | Equals => True
  | _ => mem s' = mem s
  end.
Proof. apply execute_mem_frame. Qed.

Lemma execute_changes_at_most_one_cell_witness :
  exists s', execute {| opcode := WriteOutput;
                        parameters := [{| mode := Immediate; contents := 7 |}] |}
               (ProgramState_new [104;7;99] []) = ROk tt s' /\
             mem s' = mem (ProgramState_new [104;7;99] []).
Proof.
  eexists. split; [vm_compute; reflexivity|].
  apply (execute_changes_at_most_one_cell
           {| opcode := WriteOutput; parameters := [{| mode := Immediate; contents := 7 |}] |}
           (ProgramState_new [104;7;99] [])).
  vm_compute. reflexivity.
Defined.

(** X8: [Instruction::fetch_and_decode] looks only at the program counter
    and the (at most four) memory words from it on: two states that agree
    on these decode the same instruction, or both panic the same way. *)
Theorem fetch_and_decode_reads_only_instruction_words (s t : ProgramState) :
  program_counter t = program_counter s -> 0 <= program_counter s < 2 ^ 64 ->
  (forall j, 0 <= j < 4 ->
     read_addr (mem t) (usize_add (program_counter s) j) =
     read_addr (mem s) (usize_add (program_counter s) j)) ->
  fetch_and_decode t = res_map (fun _ => t) (fetch_and_decode s).
Proof. apply fetch_and_decode_frame. Qed.

Lemma fetch_and_decode_reads_only_instruction_words_witness :
  fetch_and_decode (ProgramState_new [1;0;0;0;5;5;5] [3]) =
    res_map (fun _ => ProgramState_new [1;0;0;0;5;5;5] [3])
      (fetch_and_decode (ProgramState_new [1;0;0;0] [])).
Proof.
  apply fetch_and_decode_reads_only_instruction_words; [reflexivity|cbn; lia|].
  intros j Hj. destruct (decide (j = 0)) as [->|H0]; [reflexivity|].
  destruct (decide (j = 1)) as [->|H1]; [reflexivity|].
  destruct (decide (j = 2)) as [->|H2]; [reflexivity|].
  destruct (decide (j = 3)) as [->|H3]; [reflexivity|lia].
Defined.

(** X9: a [ReadInput] whose parameter is in immediate mode (instruction
    word [103] modulo 1000) is not rejected while the input queue is
    empty: it returns [Err(NoInput)] with the state unchanged, and it only
    panics (write to an immediate parameter) once an input is available,
    after popping it. *)
Theorem read_input_immediate_mode_waits_then_panics (s : ProgramState) :
  0 <= read_addr (mem s) (program_counter s) ->
  read_addr (mem s) (program_counter s) mod 1000 = 103 ->
  (inputs s = [] -> progress_state s = RErr NoInput s) /\
  (inputs s <> [] -> progress_state s = RPanic ImmediateWrite).
Proof.
  intros Hw Hm.
  pose proof (fetch_and_decode_spec s) as Hd. unfold decodes_as, spec_decode in Hd.
  cbv zeta in Hd.
  set (w := read_addr (mem s) (program_counter s)) in *. clearbody w.
  assert (H100 : w mod 100 = 3).
  { rewrite <- (Z.mod_mod_divide w 1000 100) by (exists 10; lia). by rewrite Hm. }
  assert (H10 : w / 100 mod 10 = 1).
  { pose proof (Z.div_mod w 1000 ltac:(lia)) as Hdm. rewrite Hm in Hdm.
    assert (Hq : w / 100 = 10 * (w / 1000) + 1) by (symmetry; apply Z.div_unique with 3; lia).
    rewrite Hq. rewrite Z.add_comm, Z.mul_comm, Z.mod_add by lia. reflexivity. }
  destruct (Z.ltb_spec w 0) as [Hneg|_]; [lia|].
  rewrite H100 in Hd. simpl in Hd. rewrite Z.div_1_r, H10 in Hd. simpl in Hd.
  split.
  - intros Hin. unfold progress_state, bind. rewrite Hd. by apply execute_read_input_empty.
  - intros Hin. destruct (inputs s) as [|x q] eqn:E; [done|].
    unfold progress_state, bind at 1. rewrite Hd.
    unfold execute, execute_op, bind, pop_input, write_param, param_write. cbn.
    rewrite E. reflexivity.
Qed.

Lemma read_input_immediate_mode_witness :
  progress_state (ProgramState_new [103;5;99] []) =
    RErr NoInput (ProgramState_new [103;5;99] []) /\
  progress_state (ProgramState_new [103;5;99] [1]) = RPanic ImmediateWrite.
Proof.
  split.
  - apply (read_input_immediate_mode_waits_then_panics (ProgramState_new [103;5;99] []));
      [vm_compute; discriminate|reflexivity|reflexivity].
  - apply (read_input_immediate_mode_waits_then_panics (ProgramState_new [103;5;99] [1]));
      [vm_compute; discriminate|reflexivity|discriminate].
Defined.

(** X10: [str::parse::<isize>], applied by [load_program_file] to each
    trimmed element, accepts exactly an optional ['+'] or ['-'] followed by
    one or more decimal digits (leading zeros allowed) whose signed value
    fits in [isize], and returns that value. *)
Theorem parse_isize_accepts_exactly_decimal_isize (src : list Z) (n : Z) :
  parse_isize src = Some n <->
  exists sign digits,
    src = sign ++ digits /\ digits <> [] /\
    Forall (fun c => 48 <= c <= 57) digits /\
    ((sign = [] \/ sign = [43]) /\ n = decimal_value digits \/
     sign = [45] /\ n = - decimal_value digits) /\
    ISIZE_MIN <= n <= ISIZE_MAX.
Proof.
  split.
  - intros H. destruct src as [|c rest]; [done|]. unfold parse_isize in H.
    destruct (Z.eqb_spec c 43) as [->|H43];
      [|destruct (Z.eqb_spec c 45) as [->|H45]].
    + destruct rest as [|d r]; [done|].
      rewrite parse_digits_pos in H by (unfold ISIZE_MAX; lia).
      destruct (forallb is_digit (d :: r)) eqn:Hd; [|done]. cbn [andb] in H.
      fold (decimal_value (d :: r)) in H.
      pose proof (digit_fold_mono (d :: r) 0 Hd ltac:(lia)) as Hm.
      fold (decimal_value (d :: r)) in Hm.
      destruct (Z.leb_spec (decimal_value (d :: r)) ISIZE_MAX); [|done]. simplify_eq.
      exists [43], (d :: r). apply is_digit_forallb in Hd.
      unfold ISIZE_MIN, ISIZE_MAX in *. repeat split; auto; lia.
    + destruct rest as [|d r]; [done|].
      rewrite <- Z.opp_0, parse_digits_neg in H by (unfold ISIZE_MAX; lia).
      destruct (forallb is_digit (d :: r)) eqn:Hd; [|done]. cbn [andb] in H.
      fold (decimal_value (d :: r)) in H.
      pose proof (digit_fold_mono (d :: r) 0 Hd ltac:(lia)) as Hm.
      fold (decimal_value (d :: r)) in Hm.
      destruct (Z.leb_spec ISIZE_MIN (- decimal_value (d :: r))); [|done]. simplify_eq.
      exists [45], (d :: r). apply is_digit_forallb in Hd.
      unfold ISIZE_MIN, ISIZE_MAX in *. repeat split; auto; lia.
    + rewrite parse_digits_pos in H by (unfold ISIZE_MAX; lia).
      destruct (forallb is_digit (c :: rest)) eqn:Hd; [|done]. cbn [andb] in H.
      fold (decimal_value (c :: rest)) in H.
      pose proof (digit_fold_mono (c :: rest) 0 Hd ltac:(lia)) as Hm.
      fold (decimal_value (c :: rest)) in Hm.
      destruct (Z.leb_spec (decimal_value (c :: rest)) ISIZE_MAX); [|done]. simplify_eq.
      exists [], (c :: rest). apply is_digit_forallb in Hd.
      unfold ISIZE_MIN, ISIZE_MAX in *. repeat split; auto; lia.
  - intros (sign & digits & -> & Hne & Hd & Hs & Hr).
    apply is_digit_forallb in Hd.
    destruct digits as [|c ds]; [done|].
    pose proof Hd as Hc. simpl in Hc. apply andb_true_iff in Hc as [Hc _].
    unfold is_digit, in_range in Hc. apply andb_true_iff in Hc as [Hc1 Hc2].
    apply Z.leb_le in Hc1, Hc2.
    destruct Hs as [[[-> | ->] ->] | [-> ->]].
    + simpl. destruct (Z.eqb_spec c 43); [lia|]. destruct (Z.eqb_spec c 45); [lia|].
      rewrite parse_digits_pos by (unfold ISIZE_MAX; lia).
      fold (decimal_value (c :: ds)). rewrite Hd. cbn [andb].
      destruct (Z.leb_spec (decimal_value (c :: ds)) ISIZE_MAX); [done|lia].
    + change (parse_digits true 0 (c :: ds) = Some (decimal_value (c :: ds))).
      rewrite parse_digits_pos by (unfold ISIZE_MAX; lia).
      fold (decimal_value (c :: ds)). rewrite Hd. cbn [andb].
      destruct (Z.leb_spec (decimal_value (c :: ds)) ISIZE_MAX); [done|lia].
    + change (parse_digits false 0 (c :: ds) = Some (- decimal_value (c :: ds))).
      rewrite <- Z.opp_0, parse_digits_neg by (unfold ISIZE_MAX; lia).
      fold (decimal_value (c :: ds)). rewrite Hd. cbn [andb].
      destruct (Z.leb_spec ISIZE_MIN (- decimal_value (c :: ds))); [done|lia].
Qed.

Lemma parse_isize_accepts_exactly_decimal_isize_witness :
  parse_isize [45; 48; 52; 50] = Some (-42).
Proof.
  apply (proj2 (parse_isize_accepts_exactly_decimal_isize [45; 48; 52; 50] (-42))).
  exists [45], [48; 52; 50]. split; [reflexivity|]. split; [discriminate|].
  split; [repeat constructor; lia|]. split.
  - right. split; reflexivity.
  - vm_compute. split; discriminate.
Defined.

(** X11: a program file written as the decimal [isize] values joined by
    commas, each value optionally padded with ASCII spaces, tabs or line
    breaks on either side, loads to the state that [ProgramState::new]
    builds from the same values with an empty input queue. *)
Theorem load_program_round_trip (xs : list Z) (pads : list (list Z * list Z)) :
  Forall (fun x => ISIZE_MIN <= x <= ISIZE_MAX) xs ->
  length pads = length xs ->
  Forall (fun pad => Forall (fun c => c = 32 \/ 9 <= c <= 13) pad.1 /\
                     Forall (fun c => c = 32 \/ 9 <= c <= 13) pad.2) pads ->
  load_program_bytes
    (join_comma (zip_with (fun x pad => pad.1 ++ render_isize x ++ pad.2) xs pads))
  = Some (ProgramState_new xs []).
Proof.
  intros Hxs Hlen Hpads.
  destruct (padded_pieces xs pads Hxs Hlen Hpads) as (H1 & H2 & H3).
  unfold load_program_bytes.
  rewrite BufRead_split_join; [|done|].
  - by rewrite (mapM_Some_2 _ _ _ H1).
  - intros Hl. apply last_Some_elem_of in Hl. rewrite Forall_forall in H3.
    by apply (H3 [] Hl).
Qed.

Lemma load_program_round_trip_witness :
  load_program_bytes [49; 44; 32; 45; 55; 44; 57; 57; 10] =
    Some (ProgramState_new [1; -7; 99] []).
Proof.
  apply (load_program_round_trip [1; -7; 99] [([], []); ([32], []); ([], [10])]).
  - repeat constructor; vm_compute; discriminate.
  - reflexivity.
  - repeat constructor; lia.
Defined.

(** X12: one comma after the last element of a non-empty program file (the
    file not already ending in a comma) is ignored: the file loads as
    without it. *)
Theorem load_program_trailing_comma_ignored (bytes : list Z) :
  bytes <> [] -> last bytes <> Some 44 ->
  load_program_bytes (bytes ++ [44]) = load_program_bytes bytes.
Proof.
  intros Hne Hl. unfold load_program_bytes. by rewrite BufRead_split_trailing.
Qed.

Lemma load_program_trailing_comma_witness :
  load_program_bytes [49; 44; 57; 57; 44] = Some (ProgramState_new [1; 99] []).
Proof.
  transitivity (load_program_bytes [49; 44; 57; 57]).
  - apply (load_program_trailing_comma_ignored [49; 44; 57; 57]); discriminate.
  - reflexivity.
Defined.

(** X13: if any comma-separated element of a program file is empty or
    consists only of ASCII whitespace (as in ["1,,2"], ["1,,"] or a final
    [",\n"]), loading fails: the [parse] of the trimmed, empty element
    panics. The file is written as its comma-free pieces [ps], followed by
    one more comma when [trailing_comma] holds; without it, [ps] does not
    end in an empty piece, which would be that trailing comma. *)
Theorem load_program_blank_element_fails (ps : list (list Z)) (p : list Z)
    (trailing_comma : bool) :
  Forall (Forall (fun b => b <> 44)) ps ->
  trailing_comma = true \/ last ps <> Some [] -> p ∈ ps ->
  Forall (fun c => c = 32 \/ 9 <= c <= 13) p ->
  load_program_bytes (join_comma (ps ++ if trailing_comma then [[]] else [])) = None.
Proof.
  intros Hps Htr Hp Hblank. unfold load_program_bytes.
  assert (Hsplit : BufRead_split 44 (join_comma (ps ++ if trailing_comma then [[]] else [])) = ps).
  { destruct trailing_comma.
    - by apply BufRead_split_join_trailing.
    - rewrite app_nil_r. apply BufRead_split_join; [done|].
      destruct Htr as [Htr|Htr]; [discriminate|done]. }
  rewrite Hsplit.
  rewrite mapM_None_2; [done|]. apply Exists_exists. exists p. split; [done|].
  assert (Hb := Forall_impl _ _ _ Hblank ascii_space_facts).
  unfold parse_element. rewrite from_utf8_ascii.
  - rewrite trim_blank; [done|]. eapply Forall_impl; [exact Hb|]. naive_solver.
  - eapply Forall_impl; [exact Hb|]. naive_solver.
Qed.

Lemma load_program_blank_element_witness :
  load_program_bytes [49; 44; 57; 57; 44; 10] = None /\
  load_program_bytes [49; 44; 44; 50] = None /\
  load_program_bytes [49; 44; 44] = None /\
  load_program_bytes [32; 44; 49; 44] = None.
Proof.
  split; [|split; [|split]].
  - apply (load_program_blank_element_fails [[49]; [57; 57]; [10]] [10] false).
    + repeat constructor; lia.
    + right. discriminate.
    + right. right. left.
    + repeat constructor; lia.
  - apply (load_program_blank_element_fails [[49]; []; [50]] [] false).
    + repeat constructor; lia.
    + right. discriminate.
    + right. left.
    + constructor.
  - apply (load_program_blank_element_fails [[49]; []] [] true).
    + repeat constructor; lia.
    + by left.
    + right. left.
    + constructor.
  - apply (load_program_blank_element_fails [[32]; [49]] [32] true).
    + repeat constructor; lia.
    + by left.
    + left.
    + repeat constructor; lia.
Defined.

(** X14: in [util::geometry], [CardDir::turn] never reaches its
    [unreachable!] arm; with [vec]'s y-up vectors, a [Clockwise] turn maps
    the direction's vector (x, y) to (-y, x), a quarter turn
    counter-clockwise; a [CounterClockwise] turn undoes it; two [Clockwise]
    turns give [opposite]; and the vector of the opposite direction is the
    negated vector. *)
Theorem util_turn_opposite_vec (d : Util.CardDir) :
  exists d1,
    Util.turn d Util.Clockwise = Some d1 /\
    Util.turn d1 Util.CounterClockwise = Some d /\
    Util.vec d1 = Util.Vec2_new (- Util.y (Util.vec d)) (Util.x (Util.vec d)) /\
    Util.turn d1 Util.Clockwise = Some (Util.opposite d) /\
    Util.vec (Util.opposite d) = Util.Vec2_neg (Util.vec d).
Proof. destruct d; eexists; repeat split; reflexivity. Qed.

(** X15: in [day_11], [CardDir::turn] never reaches its [unreachable!] arm,
    a [CounterClockwise] turn undoes a [Clockwise] one, and with the day's
    [Coord::advance] (y up, [Left] towards +x) a [Clockwise] turn rotates
    the step (dx, dy) to (dy, -dx), a quarter turn clockwise. *)
Theorem day11_turn_advance_clockwise (d : Day11.CardDir) :
  exists d1,
    Day11.turn d Day11.Clockwise = Some d1 /\
    Day11.turn d1 Day11.CounterClockwise = Some d /\
    Day11.advance (Day11.Coord_new 0 0) d1 =
      Day11.Coord_new (Day11.y (Day11.advance (Day11.Coord_new 0 0) d))
                      (- Day11.x (Day11.advance (Day11.Coord_new 0 0) d)).
Proof. destruct d; eexists; repeat split; reflexivity. Qed.

(** X16: in [day_11], after [Board::set_color_of(coord, color)],
    [get_color_of] reads [color] at [coord] and the old color everywhere
    else, and the painted set is the old one plus [coord]. *)
Theorem day11_set_color_get_color (b : Day11.Board) (c c' : Day11.Coord) (col : Day11.Color) :
  Day11.get_color_of (Day11.set_color_of b c col) c' =
    (if bool_decide (c' = c) then col else Day11.get_color_of b c') /\
  Day11.painted_ever (Day11.set_color_of b c col) = {[c]} ∪ Day11.painted_ever b.
Proof. apply board_set_get. Qed.

(** X17: one [Robot::step] of [day_11] that completes changes the color of
    no cell but the one under the robot, adds at most that cell to the
    painted set, and either leaves position and heading alone or turns the
    heading once and advances one cell in the new heading. *)
Theorem day11_step_paints_own_cell_moves_one (fuel : nat) (r r' : Day11.Robot) :
  Day11.step fuel r = Done r' ->
  (forall c, c <> Day11.pos r ->
     Day11.get_color_of (Day11.board r') c = Day11.get_color_of (Day11.board r) c) /\
  Day11.painted_ever (Day11.board r) ⊆ Day11.painted_ever (Day11.board r') /\
  Day11.painted_ever (Day11.board r') ⊆ {[Day11.pos r]} ∪ Day11.painted_ever (Day11.board r) /\
  ((Day11.pos r' = Day11.pos r /\ Day11.dir r' = Day11.dir r) \/
   exists rot, Day11.turn (Day11.dir r) rot = Some (Day11.dir r') /\
               Day11.pos r' = Day11.advance (Day11.pos r) (Day11.dir r')).
Proof.
  unfold Day11.step. intros H.
  destruct (run_to_next_input _ _) as [c| |]; try discriminate.
  destruct (pop_front (outputs c)) as [cc outs1].
  destruct (pop_front outs1) as [mc outs2].
  assert (Hb : forall b, (b = Day11.board r \/ exists col, b = Day11.set_color_of (Day11.board r) (Day11.pos r) col) ->
    (forall c, c <> Day11.pos r -> Day11.get_color_of b c = Day11.get_color_of (Day11.board r) c) /\
    Day11.painted_ever (Day11.board r) ⊆ Day11.painted_ever b /\
    Day11.painted_ever b ⊆ {[Day11.pos r]} ∪ Day11.painted_ever (Day11.board r)).
  { intros b [-> | [col ->]]; [split; [done|set_solver]|].
    split; [|destruct (board_set_get (Day11.board r) (Day11.pos r) (Day11.pos r) col) as [_ ->]; set_solver].
    intros c0 Hc0. destruct (board_set_get (Day11.board r) (Day11.pos r) c0 col) as [-> _].
    by rewrite bool_decide_false. }
  destruct (match cc with
            | Some 0 => Some (Day11.set_color_of (Day11.board r) (Day11.pos r) Day11.Black)
            | Some 1 => Some (Day11.set_color_of (Day11.board r) (Day11.pos r) Day11.White)
            | Some _ => None
            | None => Some (Day11.board r)
            end) as [b|] eqn:Ep; [|discriminate].
  assert (Hbr : b = Day11.board r \/
                exists col, b = Day11.set_color_of (Day11.board r) (Day11.pos r) col).
  { destruct cc as [[|[]|]|]; simplify_eq; eauto. }
  destruct (Hb b Hbr) as (H1 & H2 & H3).
  destruct mc as [[|[]|]|]; repeat case_match; simplify_eq/=;
    (split; [done|split; [done|split; [done|]]]); eauto.
Qed.

Lemma day11_step_paints_own_cell_moves_one_witness :
  exists r',
    Day11.step 10 (Day11.Robot_mk (Day11.Coord_new 0 0) Day11.Up Day11.Board_new
                     (ProgramState_new [3; 100; 104; 1; 104; 0; 99] [])) = Done r' /\
    (forall c, c <> Day11.Coord_new 0 0 ->
       Day11.get_color_of (Day11.board r') c = Day11.get_color_of Day11.Board_new c) /\
    Day11.painted_ever Day11.Board_new ⊆ Day11.painted_ever (Day11.board r') /\
    Day11.painted_ever (Day11.board r') ⊆ {[Day11.Coord_new 0 0]} ∪ Day11.painted_ever Day11.Board_new /\
    ((Day11.pos r' = Day11.Coord_new 0 0 /\ Day11.dir r' = Day11.Up) \/
     exists rot, Day11.turn Day11.Up rot = Some (Day11.dir r') /\
                 Day11.pos r' = Day11.advance (Day11.Coord_new 0 0) (Day11.dir r')).
Proof.
  destruct (Day11.step 10 (Day11.Robot_mk (Day11.Coord_new 0 0) Day11.Up Day11.Board_new
                     (ProgramState_new [3; 100; 104; 1; 104; 0; 99] []))) as [r'| |] eqn:E;
    [| vm_compute in E; discriminate | vm_compute in E; discriminate].
  exists r'. split; [reflexivity|].
  exact (day11_step_paints_own_cell_moves_one 10 _ r' E).
Defined.

(** X18: in [day_7], when [test_phase_settings]' feedback loop ends (the
    program given is not yet terminated), the amplifiers are as many as the
    phase settings, the last one has terminated, and the signal returned is
    the last value that amplifier output. *)
Theorem day7_loop_returns_last_amp_output (rounds fuel : nat) (phases : list Z)
    (program : ProgramState) (r : Z) (amps' : list ProgramState) :
  terminated program = false ->
  Day7.amp_loop rounds fuel (map (fun p => push_input p program) phases) 0 0 = Done (r, amps') ->
  length amps' = length phases /\
  exists a, last amps' = Some a /\ terminated a = true /\ last (outputs a) = Some r.
Proof.
  intros Ht H. apply amp_loop_spec in H as [Hlen Hres].
  - split; [by rewrite Hlen, length_map|done].
  - intros a Ha Hta. exfalso.
    apply last_Some_elem_of, list_elem_of_In, in_map_iff in Ha as (p & <- & _).
    unfold push_input in Hta. simpl in Hta. congruence.
Qed.

Lemma day7_loop_returns_last_amp_output_witness :
  exists r amps',
    Day7.amp_loop 10 100
      (map (fun p => push_input p (ProgramState_new [3; 11; 3; 12; 1; 11; 12; 13; 4; 13; 99; 0; 0; 0] []))
           [1; 2]) 0 0 = Done (r, amps') /\
    length amps' = 2%nat /\
    exists a, last amps' = Some a /\ terminated a = true /\ last (outputs a) = Some r.
Proof.
  destruct (Day7.amp_loop 10 100
      (map (fun p => push_input p (ProgramState_new [3; 11; 3; 12; 1; 11; 12; 13; 4; 13; 99; 0; 0; 0] []))
           [1; 2]) 0 0) as [[r amps']| |] eqn:E;
    [| vm_compute in E; discriminate | vm_compute in E; discriminate].
  exists r, amps'. split; [reflexivity|].
  exact (day7_loop_returns_last_amp_output 10 100 [1; 2]
           (ProgramState_new [3; 11; 3; 12; 1; 11; 12; 13; 4; 13; 99; 0; 0; 0] [])
           r amps' eq_refl E).
Defined.

(** X19: in [day_13], a [Game::step] that completes leaves fewer than three
    values in the controller's output queue, and keeps the board holding
    only walls and blocks: empty cells are removed from it, and the ball
    and paddle are kept beside it. *)
Theorem day13_step_board_walls_blocks (fuel : nat) (g g' : Day13.Game) (input : option Z) :
  map_Forall (fun _ v => v = Day13.Wall \/ v = Day13.Block) (Day13.board g) ->
  Day13.step fuel g input = Done g' ->
  map_Forall (fun _ v => v = Day13.Wall \/ v = Day13.Block) (Day13.board g') /\
  (length (outputs (Day13.controller g')) < 3)%nat.
Proof.
  intros Hg H. unfold Day13.step in H.
  destruct (run_to_next_input _ _) as [c'| |]; try discriminate.
  destruct (Day13.process_outputs (outputs c') (Day13.set_controller c' g)) as [g1|] eqn:E;
    [|discriminate].
  simplify_eq. by apply (process_outputs_inv (outputs c') (Day13.set_controller c' g)).
Qed.

Lemma day13_step_board_walls_blocks_witness :
  exists g',
    Day13.step 20 (Day13.Game_mk ∅ None None None
                    (ProgramState_new [104; 1; 104; 2; 104; 2; 104; 3; 104; 2; 104; 0;
                                       104; -1; 104; 0; 104; 7; 104; 5; 99] [])) None = Done g' /\
    map_Forall (fun _ v => v = Day13.Wall \/ v = Day13.Block) (Day13.board g') /\
    (length (outputs (Day13.controller g')) < 3)%nat.
Proof.
  destruct (Day13.step 20 (Day13.Game_mk ∅ None None None
                    (ProgramState_new [104; 1; 104; 2; 104; 2; 104; 3; 104; 2; 104; 0;
                                       104; -1; 104; 0; 104; 7; 104; 5; 99] [])) None)
    as [g'| |] eqn:E; [| vm_compute in E; discriminate | vm_compute in E; discriminate].
  exists g'. split; [reflexivity|].
  eapply (day13_step_board_walls_blocks 20 _ g' None); [|exact E].
  apply map_Forall_empty.
Defined.

(** X20: in [day_15], whenever [maze_dfs] stops (its callback asked it to,
    or the search came back to the start), its stack is a path from the
    start: the bottom element is at (0, 0) with no [from_dir], and every
    other element records a [from_dir] whose [vec] leads back to the
    position of the element below it; so [stack.len() - 1] is the length of
    a walk from the start to the top. *)
Theorem day15_maze_dfs_stack_is_path {C : Type}
    (cb : C -> list Day15.DfsStackElement -> C * bool)
    (rounds fuel : nat) (c : ProgramState) (u : C)
    (stack : list Day15.DfsStackElement) (c' : ProgramState) (u' : C) :
  Day15.maze_dfs cb rounds fuel c u = Done (stack, c', u') ->
  (exists e rest, stack = e :: rest /\
     Day15.position e = Util.Vec2_new 0 0 /\ Day15.from_dir e = None) /\
  forall i e1 e2, stack !! i = Some e1 -> stack !! S i = Some e2 ->
    exists d, Day15.from_dir e2 = Some d /\
      Util.Vec2_add (Day15.position e2) (Util.vec d) = Day15.position e1.
Proof.
  unfold Day15.maze_dfs. intros H.
  apply maze_dfs_loop_ok in H.
  2:{ split; [repeat constructor; simpl; lia|]. done. }
  destruct H as [_ Hs]. destruct stack as [|e rest]; [done|].
  destruct Hs as (H0 & H1 & H2). split; [by exists e, rest|].
  by apply dfs_linked_lookup.
Qed.

Lemma day15_maze_dfs_stack_is_path_witness :
  match Day15.maze_dfs (fun (n : nat) (stack : list Day15.DfsStackElement) => (S n, bool_decide (length stack = 2%nat)))
          20 100 (ProgramState_new [3; 100; 104; 1; 1105; 1; 0] []) 0%nat
  with
  | Done (stack, _, _) =>
      (exists e rest, stack = e :: rest /\
         Day15.position e = Util.Vec2_new 0 0 /\ Day15.from_dir e = None) /\
      forall i e1 e2, stack !! i = Some e1 -> stack !! S i = Some e2 ->
        exists d, Day15.from_dir e2 = Some d /\
          Util.Vec2_add (Day15.position e2) (Util.vec d) = Day15.position e1
  | _ => False
  end.
Proof.
  destruct (Day15.maze_dfs (fun (n : nat) (stack : list Day15.DfsStackElement) => (S n, bool_decide (length stack = 2%nat)))
          20 100 (ProgramState_new [3; 100; 104; 1; 1105; 1; 0] []) 0%nat)
    as [[[stack c'] u']| |] eqn:E; [| vm_compute in E; discriminate | vm_compute in E; discriminate].
  exact (day15_maze_dfs_stack_is_path _ 20 100 _ 0%nat stack c' u' E).
Defined.
